(** * Black-Scholes-Merton pricer, Newton implied-volatility solver and
      Monte Carlo valuation scripts of [Intro_Examples.ipynb]

    Python floats are read as real numbers ([R]): rounding, overflow and
    NaN are outside the model.  What the Python code can raise on real
    arguments is kept: [math.log] and [math.sqrt] raise [ValueError] outside
    their domain and [/] raises [ZeroDivisionError] on a zero divisor.

    The arguments of the [bsm_*] functions are Python floats, as their
    docstrings say, so that [S0 = float(S0)] changes nothing.  Iteration,
    step and path counts are natural numbers.  The three Monte Carlo scripts
    fix their parameters in their first lines ([S0 = 100.], [K = 105.], ...)
    and seed their generator; here the parameters and the sequence of
    variates the seeded generator produces are arguments, and the timing and
    printing lines are left out. *)

From Stdlib Require Import Reals Lra Lia List Arith.
Import ListNotations.

Local Open Scope R_scope.

(** ** The standard normal distribution ([scipy.stats.norm])

    [norm_pdf x = exp(-x^2/2) / sqrt(2 pi)] and [norm_cdf x] is the integral
    of [norm_pdf] over [(-oo, x]].  The integral is built from the Riemann
    integral of the Gaussian kernel on [[0, x]] and the limit of that
    primitive at [-oo]. *)

Module Normal.

Definition kernel (t : R) : R := exp (- (t * t / 2)).

Lemma kernel_pos (t : R) : 0 < kernel t.
Proof. apply exp_pos. Qed.

Lemma kernel_le_1 (t : R) : kernel t <= 1.
Proof.
  unfold kernel. rewrite <- exp_0.
  destruct (Req_dec (t * t / 2) 0) as [E | N].
  - rewrite E, Ropp_0. lra.
  - left. apply exp_increasing. nra.
Qed.

Lemma derivable_pt_lim_kernel (t : R) :
  derivable_pt_lim kernel t (- t * kernel t).
Proof.
  unfold kernel.
  assert (D : derivable_pt_lim (fun u => - (u * u / 2)) t (- t)).
  { replace (- t) with (- ((1 * t + t * 1) * / 2)) by field.
    apply (derivable_pt_lim_opp (fun u => u * u / 2)).
    apply (derivable_pt_lim_scal_right (fun u => u * u) t).
    apply (derivable_pt_lim_mult id id); apply derivable_pt_lim_id. }
  replace (- t * exp (- (t * t / 2))) with (exp (- (t * t / 2)) * - t) by ring.
  apply (derivable_pt_lim_comp (fun u => - (u * u / 2)) exp t _ _ D).
  apply derivable_pt_lim_exp.
Qed.

Lemma kernel_continuous (t : R) : continuity_pt kernel t.
Proof.
  apply derivable_continuous_pt.
  exists (- t * kernel t). apply derivable_pt_lim_kernel.
Qed.

Lemma kernel_integrable (a b : R) : Riemann_integrable kernel a b.
Proof.
  destruct (Rle_dec a b) as [Hab | Hab].
  - apply continuity_implies_RiemannInt; [exact Hab |].
    intros; apply kernel_continuous.
  - apply RiemannInt_P1.
    apply continuity_implies_RiemannInt; [lra |].
    intros; apply kernel_continuous.
Qed.

(** The primitive of the kernel that vanishes at [0]. *)
Definition kernel_prim (x : R) : R := RiemannInt (kernel_integrable 0 x).

Lemma kernel_prim_shift (a x : R) :
  kernel_prim x =
  RiemannInt (kernel_integrable a x) - RiemannInt (kernel_integrable a 0).
Proof.
  unfold kernel_prim.
  rewrite <- (RiemannInt_P26 (kernel_integrable a 0) (kernel_integrable 0 x)
                (kernel_integrable a x)).
  ring.
Qed.

(** A derivative only depends on the function near the point. *)
Lemma derivable_pt_lim_near (f g : R -> R) (x l c : R) :
  (forall y, x - 1 < y < x + 1 -> f y = g y - c) ->
  derivable_pt_lim g x l -> derivable_pt_lim f x l.
Proof.
  intros Hfg Hg eps Heps.
  destruct (Hg eps Heps) as [delta Hdelta].
  assert (Hm : 0 < Rmin delta 1).
  { apply Rmin_pos; [apply cond_pos | lra]. }
  exists (mkposreal _ Hm); simpl; intros h Hh Hlt.
  assert (H1 : Rabs h < 1).
  { eapply Rlt_le_trans; [exact Hlt | apply Rmin_r]. }
  assert (H2 : Rabs h < delta).
  { eapply Rlt_le_trans; [exact Hlt | apply Rmin_l]. }
  apply Rabs_def2 in H1.
  rewrite (Hfg (x + h)) by lra.
  rewrite (Hfg x) by lra.
  replace (g (x + h) - c - (g x - c)) with (g (x + h) - g x) by ring.
  apply Hdelta; assumption.
Qed.

Lemma derivable_pt_lim_kernel_prim (x : R) :
  derivable_pt_lim kernel_prim x (kernel x).
Proof.
  assert (h : x - 1 <= x + 1) by lra.
  assert (C0 : forall y, x - 1 <= y <= x + 1 -> continuity_pt kernel y).
  { intros; apply kernel_continuous. }
  apply (derivable_pt_lim_near kernel_prim (primitive h (FTC_P1 h C0)) x
           (kernel x) (RiemannInt (kernel_integrable (x - 1) 0))).
  - intros y Hy. rewrite (kernel_prim_shift (x - 1) y).
    f_equal. unfold primitive.
    destruct (Rle_dec (x - 1) y) as [Ha | Ha]; [| lra].
    destruct (Rle_dec y (x + 1)) as [Hb | Hb]; [| lra].
    apply RiemannInt_P5.
  - apply RiemannInt_P27. lra.
Qed.

(** Monotonicity from the sign of the derivative (mean value theorem). *)
Lemma deriv_nonneg_incr (f f' : R -> R) (a b : R) :
  a <= b ->
  (forall c, a <= c <= b -> derivable_pt_lim f c (f' c)) ->
  (forall c, a < c < b -> 0 <= f' c) ->
  f a <= f b.
Proof.
  intros Hab Hd Hpos.
  destruct Hab as [Hlt | ->]; [| lra].
  destruct (MVT_cor2 f f' a b Hlt Hd) as [c [Hc Hin]].
  specialize (Hpos c Hin). nra.
Qed.

Lemma deriv_pos_incr (f f' : R -> R) (a b : R) :
  a < b ->
  (forall c, a <= c <= b -> derivable_pt_lim f c (f' c)) ->
  (forall c, a < c < b -> 0 < f' c) ->
  f a < f b.
Proof.
  intros Hlt Hd Hpos.
  destruct (MVT_cor2 f f' a b Hlt Hd) as [c [Hc Hin]].
  specialize (Hpos c Hin). nra.
Qed.

Lemma kernel_prim_incr (a b : R) : a < b -> kernel_prim a < kernel_prim b.
Proof.
  intros Hab. apply (deriv_pos_incr kernel_prim kernel a b Hab).
  - intros; apply derivable_pt_lim_kernel_prim.
  - intros; apply kernel_pos.
Qed.

(** The primitive is bounded below on the negative axis: the kernel is
    dominated by [exp (t + 1/2)]. *)
Lemma kernel_le_exp (t : R) : kernel t <= exp (t + / 2).
Proof.
  unfold kernel.
  assert (H : - (t * t / 2) <= t + / 2).
  { pose proof (pow2_ge_0 (t + 1)). nra. }
  destruct H as [H | H].
  - left; apply exp_increasing; exact H.
  - rewrite H; lra.
Qed.

Lemma kernel_prim_lower (a : R) :
  a <= 0 -> kernel_prim 0 - exp (/ 2) <= kernel_prim a.
Proof.
  intros Ha.
  pose (m := fun t => exp (t + / 2) - kernel_prim t).
  assert (Hm : m a <= m 0).
  { apply (deriv_nonneg_incr m (fun t => exp (t + / 2) - kernel t) a 0 Ha).
    - intros c _. unfold m.
      apply (derivable_pt_lim_minus (fun t => exp (t + / 2)) kernel_prim).
      + replace (exp (c + / 2)) with (exp (c + / 2) * (1 + 0)) by ring.
        apply (derivable_pt_lim_comp (fun t => t + / 2) exp).
        * apply (derivable_pt_lim_plus id (fct_cte (/ 2))).
          -- apply derivable_pt_lim_id.
          -- apply derivable_pt_lim_const.
        * apply derivable_pt_lim_exp.
      + apply derivable_pt_lim_kernel_prim.
    - intros c _. pose proof (kernel_le_exp c). lra. }
  unfold m in Hm. rewrite Rplus_0_l in Hm.
  pose proof (exp_pos (a + / 2)). lra.
Qed.

(** The primitive sampled at [-n]: a decreasing sequence, bounded below. *)
Definition tail_seq (n : nat) : R := kernel_prim (- INR n).

Lemma tail_seq_decreasing : Un_decreasing tail_seq.
Proof.
  intros n. unfold tail_seq. left. apply kernel_prim_incr.
  rewrite S_INR. lra.
Qed.

Lemma tail_seq_has_lb : has_lb tail_seq.
Proof.
  exists (- (kernel_prim 0 - exp (/ 2))).
  intros x [i ->]. unfold opp_seq, tail_seq.
  apply Ropp_le_contravar, kernel_prim_lower.
  pose proof (pos_INR i). lra.
Qed.

(** The value of the primitive at [-oo]. *)
Definition tail_lim : R :=
  proj1_sig (decreasing_cv tail_seq tail_seq_decreasing tail_seq_has_lb).

Lemma tail_lim_cv : Un_cv tail_seq tail_lim.
Proof.
  unfold tail_lim.
  destruct (decreasing_cv tail_seq tail_seq_decreasing tail_seq_has_lb);
    assumption.
Qed.

Lemma tail_lim_le_seq (n : nat) : tail_lim <= tail_seq n.
Proof.
  apply decreasing_ineq; [apply tail_seq_decreasing | apply tail_lim_cv].
Qed.

Lemma tail_lim_lt (x : R) : tail_lim < kernel_prim x.
Proof.
  destruct (INR_unbounded (- x)) as [n Hn].
  apply Rle_lt_trans with (tail_seq n); [apply tail_lim_le_seq |].
  unfold tail_seq. apply kernel_prim_incr. lra.
Qed.

(** A lower bound of the whole sequence is a lower bound of its limit. *)
Lemma tail_lim_ge (c : R) : (forall n, c <= tail_seq n) -> c <= tail_lim.
Proof.
  intros Hc. destruct (Rle_or_lt c tail_lim) as [H | H]; [exact H |].
  exfalso.
  destruct (tail_lim_cv (c - tail_lim)) as [N HN]; [lra |].
  specialize (HN N (Nat.le_refl N)). specialize (Hc N).
  unfold Rdist in HN. apply Rabs_def2 in HN. lra.
Qed.

Definition sqrt_2pi : R := sqrt (2 * PI).

Lemma sqrt_2pi_pos : 0 < sqrt_2pi.
Proof. apply sqrt_lt_R0. pose proof PI_RGT_0. lra. Qed.

(** [scipy.stats.norm.pdf(x)] and [scipy.stats.norm.cdf(x)] for the standard
    normal distribution. *)
Definition norm_pdf (x : R) : R := kernel x / sqrt_2pi.

Definition norm_cdf (x : R) : R := (kernel_prim x - tail_lim) / sqrt_2pi.

(** [norm.cdf(x, loc, scale)]: the distribution shifted and scaled. *)
Definition norm_cdf_at (x loc scale : R) : R := norm_cdf ((x - loc) / scale).

Lemma norm_pdf_pos (x : R) : 0 < norm_pdf x.
Proof.
  unfold norm_pdf. apply Rdiv_lt_0_compat;
    [apply kernel_pos | apply sqrt_2pi_pos].
Qed.

Lemma norm_cdf_pos (x : R) : 0 < norm_cdf x.
Proof.
  unfold norm_cdf. apply Rdiv_lt_0_compat; [| apply sqrt_2pi_pos].
  pose proof (tail_lim_lt x). lra.
Qed.

(** The distribution function vanishes at [-oo]. *)
Lemma norm_cdf_tail : Un_cv (fun n => norm_cdf (- INR n)) 0.
Proof.
  intros eps Heps. pose proof sqrt_2pi_pos as Hs.
  destruct (tail_lim_cv (eps * sqrt_2pi)) as [N HN].
  { apply Rmult_lt_0_compat; assumption. }
  exists N. intros n Hn. specialize (HN n Hn).
  unfold Rdist in *. unfold norm_cdf. fold (tail_seq n).
  rewrite Rminus_0_r.
  pose proof (tail_lim_le_seq n) as Hle.
  rewrite Rabs_right in HN by lra.
  rewrite Rabs_right.
  - apply (Rmult_lt_reg_r sqrt_2pi); [exact Hs |].
    replace ((tail_seq n - tail_lim) / sqrt_2pi * sqrt_2pi)
      with (tail_seq n - tail_lim) by (field; lra).
    exact HN.
  - apply Rle_ge. apply Rmult_le_pos; [lra |].
    left. apply Rinv_0_lt_compat. exact Hs.
Qed.

Lemma norm_cdf_at_std (x : R) : norm_cdf_at x 0 1 = norm_cdf x.
Proof. unfold norm_cdf_at. f_equal. field. Qed.

(** The density is the derivative of the distribution function. *)
Lemma derivable_pt_lim_norm_cdf (x : R) :
  derivable_pt_lim norm_cdf x (norm_pdf x).
Proof.
  unfold norm_cdf, norm_pdf.
  apply (derivable_pt_lim_div_scal (fun y => kernel_prim y - tail_lim)).
  replace (kernel x) with (kernel x - 0) by ring.
  apply (derivable_pt_lim_minus kernel_prim (fct_cte tail_lim)).
  - apply derivable_pt_lim_kernel_prim.
  - apply derivable_pt_lim_const.
Qed.

Lemma norm_cdf_incr (a b : R) : a < b -> norm_cdf a < norm_cdf b.
Proof.
  intros Hab. apply (deriv_pos_incr norm_cdf norm_pdf a b Hab).
  - intros; apply derivable_pt_lim_norm_cdf.
  - intros; apply norm_pdf_pos.
Qed.

(** Mills' bound on the lower tail: for [d < 0] the mass below [d] is at
    most [kernel d / (- d)]. *)
Definition mills_gap (a : R) : R :=
  div_fct kernel (fun t => - t) a - kernel_prim a.

Lemma derivable_pt_lim_mills_gap (c : R) :
  c < 0 -> derivable_pt_lim mills_gap c (kernel c / (c * c)).
Proof.
  intros Hc.
  replace (kernel c / (c * c))
    with ((- c * kernel c * - c - -1 * kernel c) / Rsqr (- c) - kernel c)
    by (unfold Rsqr; field; lra).
  apply (derivable_pt_lim_minus (div_fct kernel (fun t => - t)) kernel_prim).
  - apply (derivable_pt_lim_div kernel (fun t => - t)).
    + apply derivable_pt_lim_kernel.
    + apply (derivable_pt_lim_opp id c 1). apply derivable_pt_lim_id.
    + lra.
  - apply derivable_pt_lim_kernel_prim.
Qed.

Lemma mills_gap_incr (a b : R) : a <= b -> b < 0 -> mills_gap a <= mills_gap b.
Proof.
  intros Hab Hb.
  apply (deriv_nonneg_incr mills_gap (fun c => kernel c / (c * c)) a b Hab).
  - intros c Hc. apply derivable_pt_lim_mills_gap. lra.
  - intros c Hc. left. apply Rdiv_lt_0_compat; [apply kernel_pos | nra].
Qed.

Lemma mills_bound (d : R) :
  d < 0 -> kernel_prim d - tail_lim <= kernel d / (- d).
Proof.
  intros Hd.
  assert (Hq : 0 < kernel d / (- d)).
  { apply Rdiv_lt_0_compat; [apply kernel_pos | lra]. }
  assert (Hlow : kernel_prim d - kernel d / (- d) <= tail_lim).
  { apply tail_lim_ge. intros n. unfold tail_seq.
    destruct (Rle_or_lt d (- INR n)) as [Hn | Hn].
    - destruct Hn as [Hn | Hn].
      + pose proof (kernel_prim_incr d (- INR n) Hn). lra.
      + rewrite <- Hn. lra.
    - assert (Hg := mills_gap_incr (- INR n) d (Rlt_le _ _ Hn) Hd).
      unfold mills_gap, div_fct in Hg.
      assert (0 < kernel (- INR n) / - - INR n).
      { apply Rdiv_lt_0_compat; [apply kernel_pos | lra]. }
      lra. }
  lra.
Qed.

(** The distribution function weighted by the inverse kernel is
    non-decreasing (monotone inverse Mills ratio). *)
Definition weighted_mass (x : R) : R :=
  (kernel_prim x - tail_lim) * exp (x * x / 2).

Lemma derivable_pt_lim_weighted_mass (x : R) :
  derivable_pt_lim weighted_mass x
    (kernel x * exp (x * x / 2)
     + (kernel_prim x - tail_lim) * (exp (x * x / 2) * x)).
Proof.
  unfold weighted_mass.
  apply (derivable_pt_lim_mult (fun y => kernel_prim y - tail_lim)
           (fun y => exp (y * y / 2))).
  - replace (kernel x) with (kernel x - 0) by ring.
    apply (derivable_pt_lim_minus kernel_prim (fct_cte tail_lim)).
    + apply derivable_pt_lim_kernel_prim.
    + apply derivable_pt_lim_const.
  - apply (derivable_pt_lim_comp (fun u => u * u / 2) exp).
    + replace x with ((1 * x + x * 1) * / 2) at 2 by field.
      apply (derivable_pt_lim_scal_right (fun u => u * u) x).
      apply (derivable_pt_lim_mult id id); apply derivable_pt_lim_id.
    + apply derivable_pt_lim_exp.
Qed.

Lemma weighted_mass_incr (a b : R) :
  a <= b -> weighted_mass a <= weighted_mass b.
Proof.
  intros Hab.
  apply (deriv_nonneg_incr weighted_mass _ a b Hab
           (fun c _ => derivable_pt_lim_weighted_mass c)).
  intros c _.
  replace (kernel c * exp (c * c / 2)
           + (kernel_prim c - tail_lim) * (exp (c * c / 2) * c))
    with (exp (c * c / 2) * (kernel c + c * (kernel_prim c - tail_lim)))
    by ring.
  apply Rmult_le_pos; [left; apply exp_pos |].
  pose proof (kernel_pos c) as Hk. pose proof (tail_lim_lt c) as Ht.
  destruct (Rle_or_lt 0 c) as [Hc | Hc].
  - nra.
  - pose proof (mills_bound c Hc) as Hm.
    assert (Hm' : - c * (kernel_prim c - tail_lim) <= kernel c).
    { apply (Rmult_le_compat_l (- c)) in Hm; [| lra].
      replace (- c * (kernel c / - c)) with (kernel c) in Hm by (field; lra).
      exact Hm. }
    lra.
Qed.

Lemma norm_cdf_weighted (a b : R) :
  a <= b -> norm_cdf a * exp (a * a / 2) <= norm_cdf b * exp (b * b / 2).
Proof.
  intros Hab. pose proof (weighted_mass_incr a b Hab) as H.
  unfold weighted_mass in H. unfold norm_cdf.
  pose proof sqrt_2pi_pos as Hs.
  unfold Rdiv.
  rewrite !(Rmult_comm _ (/ sqrt_2pi)), !Rmult_assoc.
  apply Rmult_le_compat_l; [| rewrite <- !Rmult_assoc; lra].
  left; apply Rinv_0_lt_compat; exact Hs.
Qed.

(** A cubic minorant of the primitive, from [1 - u <= exp (- u)]. *)
Definition cubic (t : R) : R := t - t * t * t / 6.

Lemma derivable_pt_lim_cubic (x : R) :
  derivable_pt_lim cubic x (1 - x * x / 2).
Proof.
  unfold cubic.
  replace (1 - x * x / 2)
    with (1 - ((1 * x + x * 1) * x + x * x * 1) * / 6) by field.
  apply (derivable_pt_lim_minus id (fun t => t * t * t / 6)).
  - apply derivable_pt_lim_id.
  - apply (derivable_pt_lim_scal_right (fun t => t * t * t) x).
    apply (derivable_pt_lim_mult (fun t => t * t) id).
    + apply (derivable_pt_lim_mult id id); apply derivable_pt_lim_id.
    + apply derivable_pt_lim_id.
Qed.

Lemma kernel_prim_cubic (a b : R) :
  a <= b -> cubic b - cubic a <= kernel_prim b - kernel_prim a.
Proof.
  intros Hab.
  pose (p := fun t => kernel_prim t - cubic t).
  assert (Hp : p a <= p b).
  { apply (deriv_nonneg_incr p (fun t => kernel t - (1 - t * t / 2)) a b Hab).
    - intros c _. apply (derivable_pt_lim_minus kernel_prim cubic).
      + apply derivable_pt_lim_kernel_prim.
      + apply derivable_pt_lim_cubic.
    - intros c _. unfold kernel.
      pose proof (exp_ineq1_le (- (c * c / 2))). lra. }
  unfold p in Hp. lra.
Qed.

(** From [1/5] on, the distribution function exceeds the density. *)
Lemma norm_pdf_lt_cdf (d : R) : / 5 <= d -> norm_pdf d < norm_cdf d.
Proof.
  intros Hd. unfold norm_pdf, norm_cdf.
  apply Rmult_lt_compat_r; [apply Rinv_0_lt_compat, sqrt_2pi_pos |].
  pose proof (kernel_le_1 d) as H1.
  pose proof (tail_lim_le_seq 1) as H2. unfold tail_seq in H2. simpl in H2.
  assert (H3 : kernel_prim (/ 5) <= kernel_prim d).
  { destruct Hd as [Hd | <-]; [left; apply kernel_prim_incr; exact Hd | lra]. }
  assert (H4 : cubic (/ 5) - cubic (- 1)
               <= kernel_prim (/ 5) - kernel_prim (- 1)).
  { apply kernel_prim_cubic; lra. }
  replace (- (1)) with (-1) in H2 by lra.
  unfold cubic in H4. lra.
Qed.

End Normal.

(** ** Python values, exceptions and arithmetic *)

(** The exceptions the modelled code can raise.  [NonFinite] stands for a
    numpy float division by zero, which yields [inf] or [nan] with a warning
    instead of raising: no real number either way. *)
Inductive pyerr : Type :=
| ValueError
| ZeroDivisionError
| IndexError
| NonFinite.

Inductive result (A : Type) : Type :=
| Ok (a : A)
| Raise (e : pyerr).

Arguments Ok {A} a.
Arguments Raise {A} e.

Definition bind {A B : Type} (m : result A) (k : A -> result B) : result B :=
  match m with
  | Ok a => k a
  | Raise e => Raise e
  end.

Declare Scope py_scope.
Delimit Scope py_scope with py.
Notation "x <- m ;; k" := (bind m (fun x => k))
  (at level 61, m at next level, right associativity) : py_scope.
Local Open Scope py_scope.

(** [math.log]: [ValueError] (math domain error) unless the argument is
    positive. *)
Definition py_log (x : R) : result R :=
  if Rlt_dec 0 x then Ok (ln x) else Raise ValueError.

(** [math.sqrt]: [ValueError] on a negative argument. *)
Definition py_sqrt (x : R) : result R :=
  if Rle_dec 0 x then Ok (sqrt x) else Raise ValueError.

(** Float division [a / b]: [ZeroDivisionError] when [b] is zero. *)
Definition py_div (a b : R) : result R :=
  if Req_dec_T b 0 then Raise ZeroDivisionError else Ok (a / b).

(** Division of a numpy scalar: no exception, but no finite value on a zero
    divisor. *)
Definition np_div (a b : R) : result R :=
  if Req_dec_T b 0 then Raise NonFinite else Ok (a / b).

(** The builtin [max(a, b)]: the first argument unless the second is
    strictly greater. *)
Definition py_max (a b : R) : R := if Rlt_dec a b then b else a.

(** ** Example 3-1: [bsm_functions.py] *)

(** The local [d1] of [bsm_call_value] and [bsm_vega]:
    [(log(S0 / K) + (r + 0.5 * sigma ** 2) * T) / (sigma * sqrt(T))],
    evaluated left to right. *)
Definition bsm_d1 (S0 K T r sigma : R) : result R :=
  q <- py_div S0 K ;;
  l <- py_log q ;;
  s <- py_sqrt T ;;
  py_div (l + (r + 0.5 * sigma ^ 2) * T) (sigma * s).

(** The local [d2] of [bsm_call_value]:
    [(log(S0 / K) + (r - 0.5 * sigma ** 2) * T) / (sigma * sqrt(T))]. *)
Definition bsm_d2 (S0 K T r sigma : R) : result R :=
  q <- py_div S0 K ;;
  l <- py_log q ;;
  s <- py_sqrt T ;;
  py_div (l + (r - 0.5 * sigma ^ 2) * T) (sigma * s).

(** [value = S0 * stats.norm.cdf(d1, 0.0, 1.0)
             - K * exp(-r * T) * stats.norm.cdf(d2, 0.0, 1.0)]. *)
Definition bsm_call_value (S0 K T r sigma : R) : result R :=
  d1 <- bsm_d1 S0 K T r sigma ;;
  d2 <- bsm_d2 S0 K T r sigma ;;
  Ok (S0 * Normal.norm_cdf_at d1 0 1
      - K * exp (- r * T) * Normal.norm_cdf_at d2 0 1).

(** [vega = S0 * stats.norm.cdf(d1, 0.0, 1.0) * sqrt(T)]. *)
Definition bsm_vega (S0 K T r sigma : R) : result R :=
  d1 <- bsm_d1 S0 K T r sigma ;;
  s <- py_sqrt T ;;
  Ok (S0 * Normal.norm_cdf_at d1 0 1 * s).

(** A [for] loop over a list of indices, threading the loop state; an
    exception raised by the body leaves the loop. *)
Fixpoint for_each {A : Type} (l : list nat) (body : nat -> A -> result A)
  (a : A) : result A :=
  match l with
  | [] => Ok a
  | i :: l' => a' <- body i a ;; for_each l' body a'
  end.

(** [range(n)] and [range(a, b)]. *)
Definition range (n : nat) : list nat := seq 0 n.
Definition range2 (a b : nat) : list nat := seq a (b - a).

(** The loop body of [bsm_call_imp_vol]:
    [sigma_est -= (bsm_call_value(...) - C0) / bsm_vega(...)]. *)
Definition imp_vol_body (S0 K T r C0 : R) (i : nat) (sigma_est : R)
  : result R :=
  v <- bsm_call_value S0 K T r sigma_est ;;
  g <- bsm_vega S0 K T r sigma_est ;;
  q <- py_div (v - C0) g ;;
  Ok (sigma_est - q).

Definition bsm_call_imp_vol (S0 K T r C0 sigma_est : R) (it : nat)
  : result R :=
  for_each (range it) (imp_vol_body S0 K T r C0) sigma_est.

(** *** The Newton-Raphson recurrence, as the specification words it *)

(** One update [sigma - (Pricer(sigma) - C) / Vega(sigma)]. *)
Definition newton_update (S0 K T r C sigma : R) : result R :=
  p <- bsm_call_value S0 K T r sigma ;;
  g <- bsm_vega S0 K T r sigma ;;
  q <- py_div (p - C) g ;;
  Ok (sigma - q).

(** [newton_sigma n] is [sigma_n]: [sigma_0] is the initial guess and
    [sigma_(n+1)] is the update of [sigma_n]. *)
Fixpoint newton_sigma (S0 K T r C sigma0 : R) (n : nat) : result R :=
  match n with
  | O => Ok sigma0
  | S n' => s <- newton_sigma S0 K T r C sigma0 n' ;;
            newton_update S0 K T r C s
  end.

(** ** Pseudo-random draws

    A seeded generator is a fixed sequence of standard normal variates
    [draws : nat -> R]; the generator state is the number of variates
    consumed so far.  Code that draws is a function from that position to a
    result and the next position. *)

Definition rand (A : Type) : Type := nat -> result (A * nat).

Definition rand_ret {A : Type} (a : A) : rand A := fun c => Ok (a, c).

Definition rand_bind {A B : Type} (m : rand A) (k : A -> rand B) : rand B :=
  fun c => match m c with
           | Ok (a, c') => k a c'
           | Raise e => Raise e
           end.

Definition lift {A : Type} (m : result A) : rand A :=
  fun c => match m with
           | Ok a => Ok (a, c)
           | Raise e => Raise e
           end.

Notation "x <~ m ;; k" := (rand_bind m (fun x => k))
  (at level 61, m at next level, right associativity) : py_scope.

(** The value a drawing script leaves, run from a freshly seeded generator. *)
Definition run {A : Type} (m : rand A) : result A :=
  match m 0%nat with
  | Ok (a, _) => Ok a
  | Raise e => Raise e
  end.

Fixpoint for_each_rand {A : Type} (l : list nat) (body : nat -> A -> rand A)
  (a : A) : rand A :=
  match l with
  | [] => rand_ret a
  | i :: l' => a' <~ body i a ;; for_each_rand l' body a'
  end.

(** [random.gauss(mu, sigma)]: one variate, shifted and scaled. *)
Definition gauss (draws : nat -> R) (mu sigma : R) : rand R :=
  fun c => Ok (mu + draws c * sigma, S c).

(** [numpy.random.standard_normal(n)]: a vector of the next [n] variates. *)
Definition standard_normal (draws : nat -> R) (n : nat) : rand (list R) :=
  fun c => Ok (map draws (seq c n), (c + n)%nat).

(** [numpy.random.standard_normal((rows, cols))]: the next [rows * cols]
    variates, filled row by row. *)
Definition standard_normal2 (draws : nat -> R) (rows cols : nat)
  : rand (list (list R)) :=
  fun c => Ok (map (fun t => map draws (seq (c + t * cols) cols))
                 (seq 0 rows),
               (c + rows * cols)%nat).

(** ** Lists and arrays *)

(** [l[i]] for [i >= 0]. *)
Definition py_index {A : Type} (l : list A) (i : nat) : result A :=
  match nth_error l i with
  | Some a => Ok a
  | None => Raise IndexError
  end.

(** [l[-1]]. *)
Definition py_last {A : Type} (l : list A) : result A :=
  match l with
  | [] => Raise IndexError
  | _ :: _ => py_index l (length l - 1)
  end.

(** A list comprehension [[f(x) for x in l]]. *)
Fixpoint comprehension {A B : Type} (f : A -> result B) (l : list A)
  : result (list B) :=
  match l with
  | [] => Ok []
  | x :: l' => y <- f x ;; ys <- comprehension f l' ;; Ok (y :: ys)
  end.

(** The builtin [sum] and [numpy.sum] of a vector: left to right from [0]. *)
Definition py_sum (l : list R) : R := fold_left Rplus l 0.

(** A two-dimensional array, as the list of its rows. *)
Definition matrix : Type := list (list R).

Definition np_zeros (rows cols : nat) : matrix := repeat (repeat 0 cols) rows.

(** [S[t] = row]. *)
Definition set_row (S : matrix) (t : nat) (row : list R) : result matrix :=
  if (t <? length S)%nat
  then Ok (firstn t S ++ row :: skipn (Datatypes.S t) S)
  else Raise IndexError.

(** Elementwise product of two vectors of one shape. *)
Fixpoint vec_mul (u v : list R) : list R :=
  match u, v with
  | x :: u', y :: v' => x * y :: vec_mul u' v'
  | _, _ => []
  end.

Fixpoint vec_add (u v : list R) : list R :=
  match u, v with
  | x :: u', y :: v' => x + y :: vec_add u' v'
  | _, _ => []
  end.

(** [numpy.cumsum(a, axis=0)]: running sums down the rows. *)
Fixpoint cumsum_from (acc : list R) (rows : matrix) : matrix :=
  match rows with
  | [] => []
  | row :: rest => let acc' := vec_add acc row in acc' :: cumsum_from acc' rest
  end.

Definition cumsum_axis0 (a : matrix) : matrix :=
  match a with
  | [] => []
  | row :: rest => row :: cumsum_from row rest
  end.

(** ** Example 3-2: [mcs_pure_python.py] *)

Section PurePython.

Variable draws : nat -> R.
Variables S0 K T r sigma : R.
Variables M I : nat.

(** The body of the loop over [t]. *)
Definition path_body (dt : R) (t : nat) (path : list R) : rand (list R) :=
  if (t =? 0)%nat then rand_ret (path ++ [S0])
  else
    z <~ gauss draws 0 1 ;;
    prev <~ lift (py_index path (t - 1)) ;;
    s <~ lift (py_sqrt dt) ;;
    rand_ret (path ++ [prev * exp ((r - 0.5 * sigma ^ 2) * dt
                                   + sigma * s * z)]).

(** The body of the loop over [i]. *)
Definition paths_body (dt : R) (i : nat) (S : list (list R))
  : rand (list (list R)) :=
  path <~ for_each_rand (range (M + 1)) (path_body dt) [] ;;
  rand_ret (S ++ [path]).

(** [dt = T / M] and the loop that fills [S]. *)
Definition simulate_paths : rand (list (list R)) :=
  dt <~ lift (py_div T (INR M)) ;;
  for_each_rand (range I) (paths_body dt) [].

(** [exp(-r * T) * sum([max(path[-1] - K, 0) for path in S]) / I]. *)
Definition estimator (S : list (list R)) : result R :=
  payoffs <- comprehension
               (fun path => last <- py_last path ;;
                            Ok (py_max (last - K) 0)) S ;;
  py_div (exp (- r * T) * py_sum payoffs) (INR I).

Definition mcs_pure_python : rand R :=
  S <~ simulate_paths ;;
  lift (estimator S).

End PurePython.

(** ** Example 3-3: [mcs_vector_numpy.py] *)

Section VectorNumpy.

Variable draws : nat -> R.
Variables S0 K T r sigma : R.
Variables M I : nat.

(** The body of the loop over [t]. *)
Definition step_body (dt : R) (t : nat) (S : matrix) : rand matrix :=
  z <~ standard_normal draws I ;;
  prev <~ lift (py_index S (t - 1)) ;;
  s <~ lift (py_sqrt dt) ;;
  lift (set_row S t
          (vec_mul prev
             (map exp (map (fun zi => (r - 0.5 * sigma ^ 2) * dt
                                      + sigma * s * zi) z)))).

Definition simulate_levels : rand matrix :=
  dt <~ lift (py_div T (INR M)) ;;
  S <~ lift (set_row (np_zeros (M + 1) I) 0 (repeat S0 I)) ;;
  for_each_rand (range2 1 (M + 1)) (step_body dt) S.

(** [math.exp(-r * T) * np.sum(np.maximum(S[-1] - K, 0)) / I]. *)
Definition np_estimator (S : matrix) : result R :=
  last <- py_last S ;;
  np_div (exp (- r * T) * py_sum (map (fun x => Rmax (x - K) 0) last))
    (INR I).

Definition mcs_vector_numpy : rand R :=
  S <~ simulate_levels ;;
  lift (np_estimator S).

End VectorNumpy.

(** ** Example 3-4: [mcs_full_vector_numpy.py] *)

Section FullVectorNumpy.

Variable draws : nat -> R.
Variables S0 K T r sigma : R.
Variables M I : nat.

(** [S = S0 * exp(cumsum(... * standard_normal((M + 1, I)), axis=0))]
    followed by [S[0] = S0]. *)
Definition simulate_levels_full : rand matrix :=
  dt <~ lift (py_div T (INR M)) ;;
  s <~ lift (py_sqrt dt) ;;
  Z <~ standard_normal2 draws (M + 1) I ;;
  lift (set_row
          (map (map (fun x => S0 * exp x))
             (cumsum_axis0
                (map (map (fun z => (r - 0.5 * sigma ^ 2) * dt
                                    + sigma * s * z)) Z)))
          0 (repeat S0 I)).

Definition mcs_full_vector_numpy : rand R :=
  S <~ simulate_levels_full ;;
  lift (np_estimator K T r I S).

End FullVectorNumpy.

(** ** The Euler scheme and the Monte Carlo estimator, as the specification
       words them *)

Section EulerScheme.

Variables S0 K T r sigma : R.
Variables M I : nat.
(** [z t i] is the variate of step [t] (from [1] to [M]) on path [i]. *)
Variable z : nat -> nat -> R.

Definition euler_dt : R := T / INR M.

(** [S_t = S_(t - dt) * exp((r - sigma^2 / 2) dt + sigma sqrt(dt) z)]. *)
Definition euler_step (prev zt : R) : R :=
  prev * exp ((r - sigma ^ 2 / 2) * euler_dt + sigma * sqrt euler_dt * zt).

Fixpoint euler_level (i t : nat) : R :=
  match t with
  | O => S0
  | S t' => euler_step (euler_level i t') (z (S t') i)
  end.

Definition euler_path (i : nat) : list R :=
  map (euler_level i) (seq 0 (M + 1)).

(** The terminal payoff [max(S_T - K, 0)] of path [i]. *)
Definition payoff (i : nat) : R := Rmax (euler_level i M - K) 0.

Fixpoint sum_upto (f : nat -> R) (n : nat) : R :=
  match n with
  | O => 0
  | S n' => sum_upto f n' + f n'
  end.

(** The discounted average payoff over the [I] paths. *)
Definition mc_value : R := exp (- r * T) * (sum_upto payoff I / INR I).

End EulerScheme.

(** * Properties *)

(** ** Arithmetic primitives *)

Lemma py_div_ok (a b : R) : b <> 0 -> py_div a b = Ok (a / b).
Proof.
  intros Hb. unfold py_div. destruct (Req_dec_T b 0); [contradiction | easy].
Qed.

Lemma py_div_zero (a : R) : py_div a 0 = Raise ZeroDivisionError.
Proof.
  unfold py_div. destruct (Req_dec_T 0 0); [easy | contradiction].
Qed.

Lemma np_div_ok (a b : R) : b <> 0 -> np_div a b = Ok (a / b).
Proof.
  intros Hb. unfold np_div. destruct (Req_dec_T b 0); [contradiction | easy].
Qed.

Lemma py_log_ok (x : R) : 0 < x -> py_log x = Ok (ln x).
Proof.
  intros Hx. unfold py_log. destruct (Rlt_dec 0 x); [easy | contradiction].
Qed.

Lemma py_sqrt_ok (x : R) : 0 <= x -> py_sqrt x = Ok (sqrt x).
Proof.
  intros Hx. unfold py_sqrt. destruct (Rle_dec 0 x); [easy | contradiction].
Qed.

Lemma py_sqrt_neg (x : R) : x < 0 -> py_sqrt x = Raise ValueError.
Proof.
  intros Hx. unfold py_sqrt. destruct (Rle_dec 0 x); [lra | easy].
Qed.

Lemma py_max_Rmax (a b : R) : py_max a b = Rmax a b.
Proof.
  unfold py_max, Rmax.
  destruct (Rlt_dec a b), (Rle_dec a b); try reflexivity; lra.
Qed.

(** ** The pricer on its domain *)

Section PricerDomain.

Variables S0 K T r sigma : R.
Hypothesis HK : K <> 0.
Hypothesis HSK : 0 < S0 / K.
Hypothesis HT : 0 < T.
Hypothesis Hsigma : sigma <> 0.

Lemma vol_sqrt_nonzero : sigma * sqrt T <> 0.
Proof.
  pose proof (sqrt_lt_R0 T HT) as Hs.
  intros E. apply Rmult_integral in E. destruct E; [contradiction | lra].
Qed.

Lemma bsm_d1_ok :
  bsm_d1 S0 K T r sigma
  = Ok ((ln (S0 / K) + (r + 0.5 * sigma ^ 2) * T) / (sigma * sqrt T)).
Proof.
  unfold bsm_d1.
  rewrite (py_div_ok S0 K HK); simpl.
  rewrite (py_log_ok _ HSK); simpl.
  rewrite (py_sqrt_ok T (Rlt_le _ _ HT)); simpl.
  apply py_div_ok, vol_sqrt_nonzero.
Qed.

Lemma bsm_d2_ok :
  bsm_d2 S0 K T r sigma
  = Ok ((ln (S0 / K) + (r - 0.5 * sigma ^ 2) * T) / (sigma * sqrt T)).
Proof.
  unfold bsm_d2.
  rewrite (py_div_ok S0 K HK); simpl.
  rewrite (py_log_ok _ HSK); simpl.
  rewrite (py_sqrt_ok T (Rlt_le _ _ HT)); simpl.
  apply py_div_ok, vol_sqrt_nonzero.
Qed.

Lemma bsm_call_value_ok :
  bsm_call_value S0 K T r sigma
  = Ok (S0 * Normal.norm_cdf
               ((ln (S0 / K) + (r + 0.5 * sigma ^ 2) * T) / (sigma * sqrt T))
        - K * exp (- r * T)
          * Normal.norm_cdf
              ((ln (S0 / K) + (r - 0.5 * sigma ^ 2) * T) / (sigma * sqrt T))).
Proof.
  unfold bsm_call_value. rewrite bsm_d1_ok, bsm_d2_ok; simpl.
  rewrite !Normal.norm_cdf_at_std. reflexivity.
Qed.

Lemma bsm_vega_ok :
  bsm_vega S0 K T r sigma
  = Ok (S0 * Normal.norm_cdf
               ((ln (S0 / K) + (r + 0.5 * sigma ^ 2) * T) / (sigma * sqrt T))
        * sqrt T).
Proof.
  unfold bsm_vega. rewrite bsm_d1_ok; simpl.
  rewrite (py_sqrt_ok T (Rlt_le _ _ HT)); simpl.
  rewrite Normal.norm_cdf_at_std. reflexivity.
Qed.

End PricerDomain.

Lemma ratio_pos (S0 K : R) : 0 < S0 -> 0 < K -> K <> 0 /\ 0 < S0 / K.
Proof.
  intros HS HK. split; [lra | apply Rdiv_lt_0_compat; assumption].
Qed.

(** ** The model on small inputs *)

Example range_3 : range 3 = [0; 1; 2]%nat.
Proof. reflexivity. Qed.

Example range2_1_4 : range2 1 4 = [1; 2; 3]%nat.
Proof. reflexivity. Qed.

Example py_last_3 : py_last [1; 2; 3] = Ok 3.
Proof. reflexivity. Qed.

Example py_last_empty : py_last (@nil R) = Raise IndexError.
Proof. reflexivity. Qed.

Example set_row_first :
  set_row (np_zeros 2 2) 0 [7; 7] = Ok [[7; 7]; [0; 0]].
Proof. reflexivity. Qed.

Example set_row_outside : set_row (np_zeros 2 2) 2 [7; 7] = Raise IndexError.
Proof. reflexivity. Qed.

Example cumsum_axis0_3x2 :
  cumsum_axis0 [[1; 2]; [3; 4]; [5; 6]]
  = [[1; 2]; [1 + 3; 2 + 4]; [1 + 3 + 5; 2 + 4 + 6]].
Proof. reflexivity. Qed.

Example standard_normal2_2x2 :
  standard_normal2 INR 2 2 1%nat
  = Ok ([[INR 1; INR 2]; [INR 3; INR 4]], 5%nat).
Proof. reflexivity. Qed.

Example gauss_then_vector :
  run (z <~ gauss INR 0 1 ;; v <~ standard_normal INR 2 ;; rand_ret (z, v))
  = Ok (0 + INR 0 * 1, [INR 1; INR 2]).
Proof. reflexivity. Qed.

Example py_max_below : py_max (-3) 0 = 0.
Proof. unfold py_max. destruct (Rlt_dec (-3) 0); [reflexivity | lra]. Qed.

Example bsm_call_value_zero_sigma :
  bsm_call_value 100 105 1 0.05 0 = Raise ZeroDivisionError.
Proof.
  unfold bsm_call_value, bsm_d1.
  rewrite py_div_ok by lra. cbv [bind].
  rewrite py_log_ok by lra.
  rewrite py_sqrt_ok by lra.
  rewrite Rmult_0_l, py_div_zero. reflexivity.
Qed.

Example bsm_call_value_negative_maturity :
  bsm_call_value 100 105 (-1) 0.05 0.2 = Raise ValueError.
Proof.
  unfold bsm_call_value, bsm_d1.
  rewrite py_div_ok by lra. cbv [bind].
  rewrite py_log_ok by lra.
  rewrite py_sqrt_neg by lra. reflexivity.
Qed.

Example bsm_call_value_zero_strike :
  bsm_call_value 100 0 1 0.05 0.2 = Raise ZeroDivisionError.
Proof. unfold bsm_call_value, bsm_d1. rewrite py_div_zero. reflexivity. Qed.

Example bsm_call_value_negative_spot :
  bsm_call_value (-100) 105 1 0.05 0.2 = Raise ValueError.
Proof.
  unfold bsm_call_value, bsm_d1. rewrite py_div_ok by lra. cbv [bind].
  unfold py_log. destruct (Rlt_dec 0 (-100 / 105)); [lra | reflexivity].
Qed.

Example bsm_call_imp_vol_no_iteration :
  bsm_call_imp_vol 100 105 1 0.05 8 0.2 0 = Ok 0.2.
Proof. reflexivity. Qed.

(** ** Vega *)

(** The vega of the specification: [S0 * phi(d1) * sqrt(T)] with [phi] the
    standard normal density. *)
Definition density_vega (S0 K T r sigma : R) : R :=
  S0 * Normal.norm_pdf
         ((ln (S0 / K) + (r + sigma ^ 2 / 2) * T) / (sigma * sqrt T))
  * sqrt T.

(** On its domain [bsm_vega] returns [S0 * N(d1) * sqrt(T)], with the
    distribution function [N] where the density is expected. *)
Lemma bsm_vega_value (S0 K T r sigma : R) :
  0 < S0 -> 0 < K -> 0 < T -> 0 < sigma ->
  bsm_vega S0 K T r sigma
  = Ok (S0 * Normal.norm_cdf
               ((ln (S0 / K) + (r + sigma ^ 2 / 2) * T) / (sigma * sqrt T))
        * sqrt T).
Proof.
  intros HS HK HT Hs. destruct (ratio_pos S0 K HS HK) as [HK0 HSK].
  rewrite (bsm_vega_ok S0 K T r sigma HK0 HSK HT) by lra.
  do 3 f_equal. f_equal. lra.
Qed.

(** C1, at [S0 = K = 100], [T = 1], [r = 0.05], [sigma = 0.2] (so that
    [d1 = 0.35]): [bsm_vega] returns [100 * N(0.35) * sqrt(1)], which is
    strictly above the value [100 * phi(0.35) * sqrt(1)] of the claimed
    formula [S0 * phi(d1) * sqrt(T)]. *)
Theorem bsm_vega_not_density :
  exists v,
    bsm_vega 100 100 1 0.05 0.2 = Ok v
    /\ v = 100 * Normal.norm_cdf 0.35 * sqrt 1
    /\ density_vega 100 100 1 0.05 0.2 = 100 * Normal.norm_pdf 0.35 * sqrt 1
    /\ density_vega 100 100 1 0.05 0.2 < v.
Proof.
  assert (Hd : (ln (100 / 100) + (0.05 + 0.2 ^ 2 / 2) * 1) / (0.2 * sqrt 1)
               = 0.35).
  { replace (100 / 100) with 1 by lra. rewrite ln_1, sqrt_1. lra. }
  exists (100 * Normal.norm_cdf 0.35 * sqrt 1).
  assert (Hv : density_vega 100 100 1 0.05 0.2
               = 100 * Normal.norm_pdf 0.35 * sqrt 1).
  { unfold density_vega. rewrite Hd. reflexivity. }
  repeat split.
  - rewrite bsm_vega_value by lra. rewrite Hd. reflexivity.
  - exact Hv.
  - rewrite Hv, sqrt_1.
    assert (H := Normal.norm_pdf_lt_cdf 0.35). lra.
Qed.

(** ** The solver *)

Lemma for_each_app {A : Type} (l1 l2 : list nat)
  (body : nat -> A -> result A) (a : A) :
  for_each (l1 ++ l2) body a
  = (a' <- for_each l1 body a ;; for_each l2 body a').
Proof.
  revert a. induction l1 as [| i l1 IH]; intros a; simpl; [reflexivity |].
  destruct (body i a) as [a' | e]; simpl; [apply IH | reflexivity].
Qed.

Lemma imp_vol_body_update (S0 K T r C0 : R) (i : nat) (sigma : R) :
  imp_vol_body S0 K T r C0 i sigma = newton_update S0 K T r C0 sigma.
Proof. reflexivity. Qed.

(** C3: for every input and every iteration count [N], the loop of
    [bsm_call_imp_vol] computes [sigma_N] of the Newton-Raphson recurrence
    [sigma_(n+1) = sigma_n - (Pricer(sigma_n) - C) / Vega(sigma_n)] started
    at the initial guess: exactly [N] updates, none skipped on convergence,
    and an exception raised by an update is the outcome of the call. *)
Theorem bsm_call_imp_vol_newton (S0 K T r C0 sigma_est : R) (N : nat) :
  bsm_call_imp_vol S0 K T r C0 sigma_est N
  = newton_sigma S0 K T r C0 sigma_est N.
Proof.
  unfold bsm_call_imp_vol, range.
  induction N as [| N IH]; [reflexivity |].
  rewrite seq_S, for_each_app, IH. simpl.
  destruct (newton_sigma S0 K T r C0 sigma_est N) as [s | e]; simpl;
    [| reflexivity].
  rewrite imp_vol_body_update.
  destruct (newton_update S0 K T r C0 s); reflexivity.
Qed.

(** ** Errors of the pricer *)

(** C4, refuted at [sigma = -0.2] (with [S0 = 100], [K = 105], [T = 1],
    [r = 0.05]): the volatility is not positive and the pricer returns a
    number. *)
Lemma bsm_call_value_negative_sigma :
  (-0.2 <= 0 \/ 1 <= 0)
  /\ exists v, bsm_call_value 100 105 1 0.05 (-0.2) = Ok v.
Proof.
  split; [left; lra |].
  eexists. apply bsm_call_value_ok; try lra.
Qed.

(** The first thing the pricer evaluates is [d1]: with [sigma = 0] or
    [T <= 0] that already raises, and the exception is the pricer's. *)
Lemma bsm_d1_raises (S0 K T r sigma : R) :
  sigma = 0 \/ T <= 0 ->
  exists e, bsm_d1 S0 K T r sigma = Raise e
            /\ (e = ValueError \/ e = ZeroDivisionError).
Proof.
  intros H. unfold bsm_d1.
  unfold py_div at 1. destruct (Req_dec_T K 0); simpl; [eauto |].
  unfold py_log. destruct (Rlt_dec 0 (S0 / K)); simpl; [| eauto].
  unfold py_sqrt. destruct (Rle_dec 0 T) as [HT | HT]; simpl; [| eauto].
  assert (E : sigma * sqrt T = 0).
  { destruct H as [-> | H]; [ring |].
    replace T with 0 by lra. rewrite sqrt_0. ring. }
  rewrite E, py_div_zero. eauto.
Qed.

Lemma bsm_call_value_d1_raises (S0 K T r sigma : R) (e : pyerr) :
  bsm_d1 S0 K T r sigma = Raise e ->
  bsm_call_value S0 K T r sigma = Raise e.
Proof. intros H. unfold bsm_call_value. rewrite H. reflexivity. Qed.

(** C4, amended: the pricer raises whenever [sigma = 0] or [T <= 0]
    (a [ZeroDivisionError] from a division, by [K] or by [sigma * sqrt(T)],
    or a [ValueError] from [log] or [sqrt]). *)
Theorem bsm_call_value_raises (S0 K T r sigma : R) :
  sigma = 0 \/ T <= 0 ->
  exists e, bsm_call_value S0 K T r sigma = Raise e
            /\ (e = ValueError \/ e = ZeroDivisionError).
Proof.
  intros H. destruct (bsm_d1_raises S0 K T r sigma H) as [e [He Hk]].
  exists e. split; [apply bsm_call_value_d1_raises; exact He | exact Hk].
Qed.

Lemma bsm_call_value_raises_witness :
  exists e, bsm_call_value 100 105 1 0.05 0 = Raise e
            /\ (e = ValueError \/ e = ZeroDivisionError).
Proof.
  apply (bsm_call_value_raises 100 105 1 0.05 0). left. reflexivity.
Defined.

(** ** Vega is positive on the pricer's domain *)

Lemma bsm_vega_pos (S0 K T r sigma : R) :
  0 < S0 -> K <> 0 -> 0 < S0 / K -> 0 < T -> sigma <> 0 ->
  exists g, bsm_vega S0 K T r sigma = Ok g /\ 0 < g.
Proof.
  intros HS HK HSK HT Hs. eexists. split.
  - apply bsm_vega_ok; assumption.
  - apply Rmult_lt_0_compat; [| apply sqrt_lt_R0; exact HT].
    apply Rmult_lt_0_compat; [exact HS | apply Normal.norm_cdf_pos].
Qed.

(** One update succeeds wherever the pricer is defined. *)
Lemma newton_update_ok (S0 K T r C sigma : R) :
  0 < S0 -> K <> 0 -> 0 < S0 / K -> 0 < T -> sigma <> 0 ->
  exists p g,
    bsm_call_value S0 K T r sigma = Ok p
    /\ bsm_vega S0 K T r sigma = Ok g
    /\ 0 < g
    /\ newton_update S0 K T r C sigma = Ok (sigma - (p - C) / g).
Proof.
  intros HS HK HSK HT Hs.
  destruct (bsm_vega_pos S0 K T r sigma HS HK HSK HT Hs) as [g [Hg Hpos]].
  pose proof (bsm_call_value_ok S0 K T r sigma HK HSK HT Hs) as Hp.
  eexists. exists g. repeat split; [exact Hp | exact Hg | exact Hpos |].
  unfold newton_update. rewrite Hp, Hg. simpl.
  rewrite py_div_ok by lra. reflexivity.
Qed.

(** C5, refuted at [sigma_est = -0.2] with one iteration (and [S0 = 100],
    [K = 105], [T = 1], [r = 0.05], [C0 = 8]): the initial guess is not
    positive and the solver returns a number. *)
Lemma bsm_call_imp_vol_negative_guess :
  -0.2 <= 0
  /\ exists s, bsm_call_imp_vol 100 105 1 0.05 8 (-0.2) 1 = Ok s.
Proof.
  split; [lra |].
  destruct (newton_update_ok 100 105 1 0.05 8 (-0.2)) as [p [g [_ [_ [_ H]]]]];
    try lra.
  eexists. unfold bsm_call_imp_vol, range. simpl.
  rewrite imp_vol_body_update, H. reflexivity.
Qed.

(** C5, amended: the solver has no guard of its own.  With no iteration it
    returns the initial guess as it is; with a zero initial guess and at
    least one iteration it fails in the first update, on the exception the
    pricer raises. *)
Theorem bsm_call_imp_vol_zero_guess (S0 K T r C0 sigma_est : R) (it : nat) :
  (it = 0%nat -> bsm_call_imp_vol S0 K T r C0 sigma_est it = Ok sigma_est)
  /\ (sigma_est = 0 -> (1 <= it)%nat ->
      exists e, bsm_call_value S0 K T r sigma_est = Raise e
                /\ bsm_call_imp_vol S0 K T r C0 sigma_est it = Raise e).
Proof.
  split.
  - intros ->. reflexivity.
  - intros Hs Hit.
    destruct (bsm_d1_raises S0 K T r sigma_est (or_introl Hs))
      as [e [Hd _]].
    pose proof (bsm_call_value_d1_raises S0 K T r sigma_est e Hd) as He.
    exists e. split; [exact He |].
    destruct it as [| it]; [lia |].
    unfold bsm_call_imp_vol, range. simpl. unfold imp_vol_body.
    rewrite He. reflexivity.
Qed.

Lemma bsm_call_imp_vol_zero_guess_witness :
  bsm_call_imp_vol 100 105 1 0.05 8 0 0 = Ok 0
  /\ exists e, bsm_call_value 100 105 1 0.05 0 = Raise e
               /\ bsm_call_imp_vol 100 105 1 0.05 8 0 1 = Raise e.
Proof.
  split.
  - apply (bsm_call_imp_vol_zero_guess 100 105 1 0.05 8 0 0). reflexivity.
  - apply (bsm_call_imp_vol_zero_guess 100 105 1 0.05 8 0 1);
      [reflexivity | lia].
Defined.

(** ** The two arguments of the distribution function *)

Lemma d2_algebra (l r sigma s : R) :
  sigma <> 0 -> s <> 0 ->
  (l + (r - / 2 * sigma ^ 2) * (s * s)) / (sigma * s)
  = (l + (r + sigma ^ 2 / 2) * (s * s)) / (sigma * s) - sigma * s.
Proof. intros Hsig Hs. field. split; assumption. Qed.

(** C6: for [S0, K, T, sigma > 0] the pricer's [d2], computed directly as
    [(ln(S0/K) + (r - sigma^2/2) T) / (sigma sqrt(T))], equals
    [d1 - sigma sqrt(T)] with
    [d1 = (ln(S0/K) + (r + sigma^2/2) T) / (sigma sqrt(T))]. *)
Theorem bsm_d2_from_d1 (S0 K T r sigma : R) :
  0 < S0 -> 0 < K -> 0 < T -> 0 < sigma ->
  exists d1 d2,
    bsm_d1 S0 K T r sigma = Ok d1
    /\ bsm_d2 S0 K T r sigma = Ok d2
    /\ d1 = (ln (S0 / K) + (r + sigma ^ 2 / 2) * T) / (sigma * sqrt T)
    /\ d2 = (ln (S0 / K) + (r - sigma ^ 2 / 2) * T) / (sigma * sqrt T)
    /\ d2 = d1 - sigma * sqrt T.
Proof.
  intros HS HK HT Hs. destruct (ratio_pos S0 K HS HK) as [HK0 HSK].
  assert (Hs0 : sigma <> 0) by lra.
  pose proof (sqrt_lt_R0 T HT) as Hq.
  assert (HTT : sqrt T * sqrt T = T) by (apply sqrt_sqrt; lra).
  exists ((ln (S0 / K) + (r + sigma ^ 2 / 2) * T) / (sigma * sqrt T)).
  exists ((ln (S0 / K) + (r - sigma ^ 2 / 2) * T) / (sigma * sqrt T)).
  repeat split.
  - rewrite (bsm_d1_ok S0 K T r sigma HK0 HSK HT Hs0). do 3 f_equal. lra.
  - rewrite (bsm_d2_ok S0 K T r sigma HK0 HSK HT Hs0). do 3 f_equal. lra.
  - rewrite <- HTT at 1 3.
    rewrite <- (d2_algebra (ln (S0 / K)) r sigma (sqrt T)) by lra.
    do 2 f_equal. lra.
Qed.

Lemma bsm_d2_from_d1_witness :
  exists d1 d2,
    bsm_d1 100 105 1 0.05 0.2 = Ok d1
    /\ bsm_d2 100 105 1 0.05 0.2 = Ok d2
    /\ d1 = (ln (100 / 105) + (0.05 + 0.2 ^ 2 / 2) * 1) / (0.2 * sqrt 1)
    /\ d2 = (ln (100 / 105) + (0.05 - 0.2 ^ 2 / 2) * 1) / (0.2 * sqrt 1)
    /\ d2 = d1 - 0.2 * sqrt 1.
Proof.
  apply (bsm_d2_from_d1 100 105 1 0.05 0.2); lra.
Defined.

(** ** Non-negativity of the price *)

(** [d1^2 / 2 - d2^2 / 2 = ln(S0/K) + r T]. *)
Lemma half_squares_gap (l r sigma s T : R) :
  sigma <> 0 -> s <> 0 -> s * s = T ->
  let d1 := (l + (r + sigma ^ 2 / 2) * T) / (sigma * s) in
  let d2 := (l + (r - sigma ^ 2 / 2) * T) / (sigma * s) in
  d1 * d1 / 2 = d2 * d2 / 2 + (l + r * T).
Proof.
  intros Hsig Hs <- d1 d2. unfold d1, d2. field. split; assumption.
Qed.

Lemma d2_le_d1 (l r sigma s T : R) :
  0 < sigma -> 0 < s -> 0 < T ->
  (l + (r - sigma ^ 2 / 2) * T) / (sigma * s)
  <= (l + (r + sigma ^ 2 / 2) * T) / (sigma * s).
Proof.
  intros Hsig Hs HT.
  apply Rmult_le_compat_r.
  - left. apply Rinv_0_lt_compat. nra.
  - nra.
Qed.

(** The Black-Scholes-Merton value is non-negative: the inverse Mills
    ratio is monotone, and [d1], [d2] differ by [ln(S0/K) + r T] in their
    half squares. *)
Lemma bsm_formula_nonneg (S0 K T r sigma : R) :
  0 < S0 -> 0 < K -> 0 < T -> 0 < sigma ->
  0 <= S0 * Normal.norm_cdf
              ((ln (S0 / K) + (r + sigma ^ 2 / 2) * T) / (sigma * sqrt T))
       - K * exp (- r * T)
         * Normal.norm_cdf
             ((ln (S0 / K) + (r - sigma ^ 2 / 2) * T) / (sigma * sqrt T)).
Proof.
  intros HS HK HT Hs.
  pose proof (sqrt_lt_R0 T HT) as Hq.
  assert (HTT : sqrt T * sqrt T = T) by (apply sqrt_sqrt; lra).
  set (d1 := (ln (S0 / K) + (r + sigma ^ 2 / 2) * T) / (sigma * sqrt T)).
  set (d2 := (ln (S0 / K) + (r - sigma ^ 2 / 2) * T) / (sigma * sqrt T)).
  assert (Hle : d2 <= d1).
  { unfold d1, d2. apply d2_le_d1; assumption. }
  assert (Hgap : d1 * d1 / 2 = d2 * d2 / 2 + (ln (S0 / K) + r * T)).
  { unfold d1, d2.
    apply (half_squares_gap (ln (S0 / K)) r sigma (sqrt T) T); lra. }
  pose proof (Normal.norm_cdf_weighted d2 d1 Hle) as Hw.
  rewrite Hgap, !exp_plus in Hw.
  rewrite exp_ln in Hw by (apply Rdiv_lt_0_compat; assumption).
  pose proof (exp_pos (d2 * d2 / 2)) as He.
  pose proof (exp_pos (r * T)) as Hg.
  pose proof (Normal.norm_cdf_pos d1) as H1.
  pose proof (Normal.norm_cdf_pos d2) as H2.
  replace (- r * T) with (- (r * T)) by ring.
  rewrite exp_Ropp.
  assert (Hc : Normal.norm_cdf d2
               <= Normal.norm_cdf d1 * (S0 / K * exp (r * T))).
  { apply (Rmult_le_reg_l (exp (d2 * d2 / 2))); [exact He |]. lra. }
  assert (Hk : K * / exp (r * T) * Normal.norm_cdf d2
               <= K * / exp (r * T)
                  * (Normal.norm_cdf d1 * (S0 / K * exp (r * T)))).
  { apply Rmult_le_compat_l; [| exact Hc].
    left. apply Rmult_lt_0_compat; [exact HK |].
    apply Rinv_0_lt_compat; exact Hg. }
  replace (K * / exp (r * T)
           * (Normal.norm_cdf d1 * (S0 / K * exp (r * T))))
    with (S0 * Normal.norm_cdf d1) in Hk by (field; lra).
  lra.
Qed.

(** C7: for [S0, K, T, sigma > 0] the pricer returns
    [S0 * N(d1) - K * exp(-r T) * N(d2)], and that value is non-negative. *)
Theorem bsm_call_value_nonneg (S0 K T r sigma : R) :
  0 < S0 -> 0 < K -> 0 < T -> 0 < sigma ->
  exists v,
    bsm_call_value S0 K T r sigma = Ok v
    /\ v = S0 * Normal.norm_cdf
                  ((ln (S0 / K) + (r + sigma ^ 2 / 2) * T) / (sigma * sqrt T))
           - K * exp (- r * T)
             * Normal.norm_cdf
                 ((ln (S0 / K) + (r - sigma ^ 2 / 2) * T) / (sigma * sqrt T))
    /\ 0 <= v.
Proof.
  intros HS HK HT Hs. destruct (ratio_pos S0 K HS HK) as [HK0 HSK].
  eexists. split; [| split; [reflexivity |]].
  - rewrite (bsm_call_value_ok S0 K T r sigma HK0 HSK HT) by lra.
    f_equal. f_equal; [do 2 f_equal | do 2 f_equal]; f_equal; lra.
  - apply bsm_formula_nonneg; assumption.
Qed.

Lemma bsm_call_value_nonneg_witness :
  exists v,
    bsm_call_value 100 105 1 0.05 0.2 = Ok v
    /\ v = 100 * Normal.norm_cdf
                   ((ln (100 / 105) + (0.05 + 0.2 ^ 2 / 2) * 1)
                    / (0.2 * sqrt 1))
           - 105 * exp (- (0.05) * 1)
             * Normal.norm_cdf
                 ((ln (100 / 105) + (0.05 - 0.2 ^ 2 / 2) * 1)
                  / (0.2 * sqrt 1))
    /\ 0 <= v.
Proof.
  apply (bsm_call_value_nonneg 100 105 1 0.05 0.2); lra.
Defined.

(** ** The exact fixed point of the solver *)

Lemma newton_update_fixed (S0 K T r C0 sigma : R) :
  0 < S0 -> 0 < K -> 0 < T -> 0 < sigma ->
  bsm_call_value S0 K T r sigma = Ok C0 ->
  newton_update S0 K T r C0 sigma = Ok sigma.
Proof.
  intros HS HK HT Hs HC. destruct (ratio_pos S0 K HS HK) as [HK0 HSK].
  destruct (newton_update_ok S0 K T r C0 sigma)
    as [p [g [Hp [_ [Hg Hu]]]]]; try assumption; try lra.
  rewrite Hu. rewrite HC in Hp. injection Hp as <-.
  f_equal. field. lra.
Qed.

(** C9: for [S0, K, T, sigma_est > 0], when the market price is exactly
    [bsm_call_value(S0, K, T, r, sigma_est)], the solver returns
    [sigma_est] unchanged for every iteration count. *)
Theorem bsm_call_imp_vol_fixed_point (S0 K T r C0 sigma_est : R) (it : nat) :
  0 < S0 -> 0 < K -> 0 < T -> 0 < sigma_est ->
  bsm_call_value S0 K T r sigma_est = Ok C0 ->
  bsm_call_imp_vol S0 K T r C0 sigma_est it = Ok sigma_est.
Proof.
  intros HS HK HT Hs HC. unfold bsm_call_imp_vol, range.
  generalize 0%nat as k.
  induction it as [| it IH]; intros k; simpl; [reflexivity |].
  rewrite imp_vol_body_update.
  rewrite (newton_update_fixed S0 K T r C0 sigma_est HS HK HT Hs HC).
  simpl. apply IH.
Qed.

Lemma bsm_call_imp_vol_fixed_point_witness :
  bsm_call_imp_vol 100 105 1 0.05
    (100 * Normal.norm_cdf
             ((ln (100 / 105) + (0.05 + 0.5 * 0.2 ^ 2) * 1) / (0.2 * sqrt 1))
     - 105 * exp (- (0.05) * 1)
       * Normal.norm_cdf
           ((ln (100 / 105) + (0.05 - 0.5 * 0.2 ^ 2) * 1) / (0.2 * sqrt 1)))
    0.2 100
  = Ok 0.2.
Proof.
  apply (bsm_call_imp_vol_fixed_point 100 105 1 0.05); try lra.
  apply bsm_call_value_ok; lra.
Defined.

(** ** Loops that draw *)

(** A loop whose body appends one element per index builds the list of those
    elements; [pos i] is the generator position before index [i]. *)
Lemma for_each_rand_collect {B : Type} (f : nat -> B) (pos : nat -> nat)
  (body : nat -> list B -> rand (list B)) (n : nat) :
  forall k,
    (forall i, (k <= i < k + n)%nat ->
               body i (map f (seq 0 i)) (pos i)
               = Ok (map f (seq 0 (S i)), pos (S i))) ->
    for_each_rand (seq k n) body (map f (seq 0 k)) (pos k)
    = Ok (map f (seq 0 (k + n)), pos (k + n)%nat).
Proof.
  induction n as [| n IH]; intros k Hbody; simpl.
  - rewrite Nat.add_0_r. reflexivity.
  - unfold rand_bind. rewrite Hbody by lia.
    rewrite IH.
    + replace (S k + n)%nat with (k + S n)%nat by lia. reflexivity.
    + intros i Hi. apply Hbody. lia.
Qed.

Lemma py_index_map_seq {B : Type} (f : nat -> B) (n i : nat) :
  (i < n)%nat -> py_index (map f (seq 0 n)) i = Ok (f i).
Proof.
  intros Hi. unfold py_index.
  rewrite nth_error_map, nth_error_seq.
  destruct (Nat.ltb_spec i n) as [_ | H]; [reflexivity | lia].
Qed.

Lemma py_last_map_seq {B : Type} (f : nat -> B) (n : nat) :
  py_last (map f (seq 0 (S n))) = Ok (f n).
Proof.
  unfold py_last.
  destruct (map f (seq 0 (S n))) as [| b l] eqn:E; [discriminate |].
  rewrite <- E. rewrite length_map, length_seq.
  replace (S n - 1)%nat with n by lia.
  apply py_index_map_seq. lia.
Qed.

Lemma py_sum_snoc (l : list R) (x : R) : py_sum (l ++ [x]) = py_sum l + x.
Proof. unfold py_sum. rewrite fold_left_app. reflexivity. Qed.

Lemma py_sum_map_seq (f : nat -> R) (n : nat) :
  py_sum (map f (seq 0 n)) = sum_upto f n.
Proof.
  induction n as [| n IH]; [reflexivity |].
  rewrite seq_S, map_app. simpl map at 2.
  rewrite py_sum_snoc, IH. reflexivity.
Qed.

Lemma INR_pos_nonzero (n : nat) : (1 <= n)%nat -> 0 < INR n.
Proof. intros Hn. apply lt_0_INR. lia. Qed.

Lemma euler_dt_nonneg (T : R) (M : nat) :
  (1 <= M)%nat -> 0 <= T -> 0 <= euler_dt T M.
Proof.
  intros HM HT. unfold euler_dt.
  apply Rmult_le_pos; [exact HT |].
  left. apply Rinv_0_lt_compat, INR_pos_nonzero, HM.
Qed.

Lemma euler_dt_neg (T : R) (M : nat) :
  (1 <= M)%nat -> T < 0 -> euler_dt T M < 0.
Proof.
  intros HM HT. unfold euler_dt.
  pose proof (Rinv_0_lt_compat _ (INR_pos_nonzero M HM)).
  unfold Rdiv. nra.
Qed.

Lemma comprehension_map {A B C : Type} (g : B -> result C) (f : A -> B)
  (h : A -> C) (l : list A) :
  (forall x, In x l -> g (f x) = Ok (h x)) ->
  comprehension g (map f l) = Ok (map h l).
Proof.
  induction l as [| x l IH]; intros Hg; simpl; [reflexivity |].
  rewrite (Hg x) by (left; reflexivity). simpl.
  rewrite IH by (intros y Hy; apply Hg; right; exact Hy).
  reflexivity.
Qed.

(** ** The pure-Python simulator *)

Section PurePythonProps.

Variable draws : nat -> R.
Variables S0 K T r sigma : R.
Variables M I : nat.

(** The variate the sequential generator hands to step [t] of path [i]:
    path [i] consumes the [M] variates from position [i * M] on. *)
Definition gauss_at (t i : nat) : R := draws (i * M + (t - 1))%nat.

Let level := euler_level S0 T r sigma M gauss_at.
Let path := euler_path S0 T r sigma M gauss_at.

Lemma path_body_step (i t : nat) :
  0 <= euler_dt T M ->
  path_body draws S0 r sigma (euler_dt T M) t (map (level i) (seq 0 t))
    (i * M + pred t)%nat
  = Ok (map (level i) (seq 0 (S t)), (i * M + pred (S t))%nat).
Proof.
  intros Hdt. unfold path_body. destruct t as [| t].
  - reflexivity.
  - replace (S t =? 0)%nat with false by reflexivity.
    unfold rand_bind, gauss, lift, rand_ret.
    replace (S t - 1)%nat with t by lia.
    rewrite py_index_map_seq by lia.
    rewrite (py_sqrt_ok _ Hdt).
    rewrite (seq_S (S t) 0), map_app. simpl pred. simpl map at 3.
    rewrite Nat.add_succ_r. do 3 f_equal.
    replace (0 + S t)%nat with (S t) by lia.
    unfold level at 2. simpl. unfold euler_step, gauss_at. fold (level i t).
    replace (S t - 1)%nat with t by lia.
    do 3 f_equal; lra.
Qed.

Lemma path_loop (i : nat) :
  0 <= euler_dt T M ->
  for_each_rand (range (M + 1)) (path_body draws S0 r sigma (euler_dt T M))
    [] (i * M)%nat
  = Ok (path i, (i * M + M)%nat).
Proof.
  intros Hdt.
  pose proof (for_each_rand_collect (level i) (fun t => (i * M + pred t)%nat)
                (path_body draws S0 r sigma (euler_dt T M)) (M + 1) 0) as H.
  simpl in H. rewrite Nat.add_0_r in H. unfold range. rewrite H.
  - replace (pred (M + 1)) with M by lia. reflexivity.
  - intros t _. apply path_body_step. exact Hdt.
Qed.

Lemma paths_body_step (i : nat) :
  0 <= euler_dt T M ->
  paths_body draws S0 r sigma M (euler_dt T M) i (map path (seq 0 i))
    (i * M)%nat
  = Ok (map path (seq 0 (S i)), (S i * M)%nat).
Proof.
  intros Hdt. unfold paths_body, rand_bind.
  rewrite (path_loop i Hdt). unfold rand_ret.
  rewrite seq_S, map_app. simpl. do 2 f_equal. lia.
Qed.

Lemma simulate_paths_ok :
  (1 <= M)%nat -> 0 <= T ->
  simulate_paths draws S0 T r sigma M I 0%nat
  = Ok (map path (seq 0 I), (I * M)%nat).
Proof.
  intros HM HT.
  pose proof (euler_dt_nonneg T M HM HT) as Hdt.
  unfold simulate_paths, rand_bind, lift.
  rewrite py_div_ok by (pose proof (INR_pos_nonzero M HM); lra).
  fold (euler_dt T M).
  pose proof (for_each_rand_collect path (fun i => (i * M)%nat)
                (paths_body draws S0 r sigma M (euler_dt T M)) I 0) as H.
  simpl in H. unfold range. apply H.
  intros i _. apply paths_body_step. exact Hdt.
Qed.

Lemma estimator_ok :
  (1 <= I)%nat ->
  estimator K T r I (map path (seq 0 I))
  = Ok (mc_value S0 K T r sigma M I gauss_at).
Proof.
  intros HI. unfold estimator.
  rewrite (comprehension_map _ path (payoff S0 K T r sigma M gauss_at)).
  - simpl. rewrite py_sum_map_seq.
    pose proof (INR_pos_nonzero I HI).
    rewrite py_div_ok by lra.
    f_equal. unfold mc_value. field. lra.
  - intros i _. unfold path, euler_path.
    replace (M + 1)%nat with (S M) by lia.
    rewrite py_last_map_seq. simpl.
    rewrite py_max_Rmax. reflexivity.
Qed.

Lemma path_body_negative_dt (dt : R) (c : nat) :
  dt < 0 -> path_body draws S0 r sigma dt 1 [S0] c = Raise ValueError.
Proof.
  intros Hdt. unfold path_body, rand_bind, gauss, lift. simpl.
  rewrite (py_sqrt_neg _ Hdt). reflexivity.
Qed.

(** With a negative maturity the first step of the first path raises. *)
Lemma simulate_paths_negative_maturity :
  (1 <= M)%nat -> (1 <= I)%nat -> T < 0 ->
  simulate_paths draws S0 T r sigma M I 0%nat = Raise ValueError.
Proof.
  intros HM HI HT.
  pose proof (euler_dt_neg T M HM HT) as Hdt.
  unfold simulate_paths, rand_bind, lift.
  rewrite py_div_ok by (pose proof (INR_pos_nonzero M HM); lra).
  fold (euler_dt T M).
  destruct I as [| I']; [lia |]. destruct M as [| M']; [lia |].
  unfold range. simpl. unfold paths_body, rand_bind.
  replace (S M' + 1)%nat with (S (S M')) by lia. simpl.
  unfold rand_bind. simpl.
  rewrite (path_body_negative_dt _ _ Hdt). reflexivity.
Qed.

End PurePythonProps.

Lemma run_bind_lift {A B : Type} (m : rand A) (g : A -> result B) (a : A)
  (c : nat) :
  m 0%nat = Ok (a, c) -> run (x <~ m ;; lift (g x)) = g a.
Proof.
  intros H. unfold run, rand_bind, lift. rewrite H.
  destruct (g a); reflexivity.
Qed.

Lemma run_bind_raise {A B : Type} (m : rand A) (k : A -> rand B) (e : pyerr) :
  m 0%nat = Raise e -> run (x <~ m ;; k x) = Raise e.
Proof. intros H. unfold run, rand_bind. rewrite H. reflexivity. Qed.

Lemma run_ok {A : Type} (m : rand A) (a : A) (c : nat) :
  m 0%nat = Ok (a, c) -> run m = Ok a.
Proof. intros H. unfold run. rewrite H. reflexivity. Qed.

Lemma pure_python_run_ok (draws : nat -> R) (S0 K T r sigma : R)
  (M I : nat) :
  (1 <= M)%nat -> (1 <= I)%nat -> 0 <= T ->
  run (simulate_paths draws S0 T r sigma M I)
  = Ok (map (euler_path S0 T r sigma M (gauss_at draws M)) (seq 0 I))
  /\ run (mcs_pure_python draws S0 K T r sigma M I)
     = Ok (mc_value S0 K T r sigma M I (gauss_at draws M)).
Proof.
  intros HM HI HT. split.
  - apply (run_ok _ _ _ (simulate_paths_ok draws S0 T r sigma M I HM HT)).
  - unfold mcs_pure_python.
    rewrite (run_bind_lift _ _ _ _
               (simulate_paths_ok draws S0 T r sigma M I HM HT)).
    apply estimator_ok. exact HI.
Qed.

(** C8: for [M >= 1] and [I >= 1], the pure-Python simulator builds path
    [i] as the Euler path [S_0 = S0],
    [S_t = S_(t-1) * exp((r - sigma^2/2) dt + sigma sqrt(dt) z)] with
    [dt = T / M] and [z] the variate drawn for that step, and the value it
    leaves is [exp(-r T)] times the average over the [I] paths of
    [max(S_T - K, 0)].  It runs to that value whenever [T >= 0], and it
    never leaves any other value. *)
Theorem mcs_pure_python_value (draws : nat -> R) (S0 K T r sigma : R)
  (M I : nat) :
  (1 <= M)%nat -> (1 <= I)%nat ->
  (0 <= T ->
   run (simulate_paths draws S0 T r sigma M I)
   = Ok (map (euler_path S0 T r sigma M (gauss_at draws M)) (seq 0 I))
   /\ run (mcs_pure_python draws S0 K T r sigma M I)
      = Ok (mc_value S0 K T r sigma M I (gauss_at draws M)))
  /\ (forall v,
        run (mcs_pure_python draws S0 K T r sigma M I) = Ok v ->
        v = mc_value S0 K T r sigma M I (gauss_at draws M)).
Proof.
  intros HM HI.
  split.
  - intros HT. apply pure_python_run_ok; assumption.
  - intros v Hv. destruct (Rle_or_lt 0 T) as [HT | HT].
    + destruct (pure_python_run_ok draws S0 K T r sigma M I
                  HM HI HT) as [_ Hok].
      rewrite Hok in Hv. injection Hv as <-. reflexivity.
    + unfold mcs_pure_python in Hv.
      rewrite (run_bind_raise _ _ _
                 (simulate_paths_negative_maturity draws S0 T r sigma M I
                    HM HI HT)) in Hv.
      discriminate.
Qed.

Lemma mcs_pure_python_value_witness :
  run (simulate_paths (fun _ => 0) 100 1 0.05 0.2 2 3)
  = Ok (map (euler_path 100 1 0.05 0.2 2 (gauss_at (fun _ => 0) 2))
          (seq 0 3))
  /\ run (mcs_pure_python (fun _ => 0) 100 105 1 0.05 0.2 2 3)
     = Ok (mc_value 100 105 1 0.05 0.2 2 3 (gauss_at (fun _ => 0) 2)).
Proof.
  destruct (mcs_pure_python_value (fun _ => 0) 100 105 1 0.05 0.2 2 3)
    as [H _]; [lia | lia |].
  apply H. lra.
Defined.

(** ** The shape of the generated paths *)

Lemma euler_level_pos (S0 T r sigma : R) (M : nat) (z : nat -> nat -> R)
  (i t : nat) :
  0 < S0 -> 0 < euler_level S0 T r sigma M z i t.
Proof.
  intros HS. induction t as [| t IH]; simpl; [exact HS |].
  unfold euler_step. apply Rmult_lt_0_compat; [exact IH | apply exp_pos].
Qed.

Lemma euler_path_shape (S0 T r sigma : R) (M : nat) (z : nat -> nat -> R)
  (i : nat) :
  0 < S0 ->
  length (euler_path S0 T r sigma M z i) = (M + 1)%nat
  /\ nth_error (euler_path S0 T r sigma M z i) 0 = Some S0
  /\ Forall (fun x => 0 < x) (euler_path S0 T r sigma M z i).
Proof.
  intros HS. unfold euler_path. repeat split.
  - rewrite length_map, length_seq. reflexivity.
  - replace (M + 1)%nat with (S M) by lia. reflexivity.
  - apply Forall_map, Forall_forall. intros t _.
    apply euler_level_pos. exact HS.
Qed.

Lemma simulate_paths_no_step (draws : nat -> R) (S0 T r sigma : R) (I : nat) :
  simulate_paths draws S0 T r sigma 0 I 0%nat = Raise ZeroDivisionError.
Proof.
  unfold simulate_paths, rand_bind, lift. simpl INR.
  rewrite py_div_zero. reflexivity.
Qed.

(** C10: for [S0 > 0] and every sequence of draws, each path the
    pure-Python simulator generates has exactly [M + 1] levels, starts at
    [S0] and is strictly positive throughout; with [M >= 1] and [T >= 0]
    the simulator does generate its [I] paths. *)
Theorem simulate_paths_invariant (draws : nat -> R) (S0 T r sigma : R)
  (M I : nat) :
  0 < S0 ->
  (forall S,
      run (simulate_paths draws S0 T r sigma M I) = Ok S ->
      Forall (fun path => length path = (M + 1)%nat
                          /\ nth_error path 0 = Some S0
                          /\ Forall (fun x => 0 < x) path) S)
  /\ ((1 <= M)%nat -> 0 <= T ->
      exists S, run (simulate_paths draws S0 T r sigma M I) = Ok S
                /\ length S = I).
Proof.
  intros HS. split.
  - intros S HSok. unfold run in HSok.
    destruct M as [| M'].
    { rewrite simulate_paths_no_step in HSok. discriminate. }
    destruct (Rle_or_lt 0 T) as [HT | HT].
    + rewrite (simulate_paths_ok draws S0 T r sigma (Datatypes.S M') I)
        in HSok by (lia || assumption).
      injection HSok as <-.
      apply Forall_map, Forall_forall. intros i _.
      apply euler_path_shape. exact HS.
    + destruct I as [| I'].
      * unfold simulate_paths, rand_bind, lift in HSok.
        destruct (py_div T (INR (Datatypes.S M'))); simpl in HSok;
          [| discriminate].
        injection HSok as <-. constructor.
      * rewrite (simulate_paths_negative_maturity draws S0 T r sigma
                   (Datatypes.S M') (Datatypes.S I')) in HSok
          by (lia || assumption).
        discriminate.
  - intros HM HT. eexists. split.
    + apply (run_ok _ _ _ (simulate_paths_ok draws S0 T r sigma M I HM HT)).
    + rewrite length_map, length_seq. reflexivity.
Qed.

Lemma simulate_paths_invariant_witness :
  exists S,
    run (simulate_paths (fun _ => 0) 100 1 0.05 0.2 2 3) = Ok S
    /\ length S = 3%nat
    /\ Forall (fun path => length path = (2 + 1)%nat
                           /\ nth_error path 0 = Some 100
                           /\ Forall (fun x => 0 < x) path) S.
Proof.
  destruct (simulate_paths_invariant (fun _ => 0) 100 1 0.05 0.2 2 3)
    as [Hinv Hex]; [lra |].
  destruct Hex as [S [HS HL]]; [lia | lra |].
  exists S. split; [exact HS | split; [exact HL | apply Hinv; exact HS]].
Defined.

(** ** Vectors and arrays *)

Lemma for_each_rand_inv {A : Type} (inv : nat -> A) (pos : nat -> nat)
  (body : nat -> A -> rand A) (n : nat) :
  forall k,
    (forall i, (k <= i < k + n)%nat ->
               body i (inv i) (pos i) = Ok (inv (S i), pos (S i))) ->
    for_each_rand (seq k n) body (inv k) (pos k)
    = Ok (inv (k + n)%nat, pos (k + n)%nat).
Proof.
  induction n as [| n IH]; intros k Hbody; simpl.
  - rewrite Nat.add_0_r. reflexivity.
  - unfold rand_bind. rewrite Hbody by lia.
    rewrite IH.
    + replace (S k + n)%nat with (k + S n)%nat by lia. reflexivity.
    + intros i Hi. apply Hbody. lia.
Qed.

Lemma vec_mul_map {B : Type} (f g : B -> R) (l : list B) :
  vec_mul (map f l) (map g l) = map (fun x => f x * g x) l.
Proof. induction l as [| x l IH]; simpl; [| rewrite IH]; reflexivity. Qed.

Lemma vec_add_map {B : Type} (f g : B -> R) (l : list B) :
  vec_add (map f l) (map g l) = map (fun x => f x + g x) l.
Proof. induction l as [| x l IH]; simpl; [| rewrite IH]; reflexivity. Qed.

Lemma map_seq_from {B : Type} (f : nat -> B) (c n : nat) :
  map f (seq c n) = map (fun i => f (c + i)%nat) (seq 0 n).
Proof.
  revert f c. induction n as [| n IH]; intros f c; simpl; [reflexivity |].
  rewrite Nat.add_0_r. f_equal.
  rewrite (IH f (S c)), (IH (fun i => f (c + i)%nat) 1%nat).
  apply map_ext. intros i. f_equal. lia.
Qed.

Lemma map_const_seq {B : Type} (b : B) (n : nat) :
  map (fun _ => b) (seq 0 n) = repeat b n.
Proof.
  generalize 0%nat as k.
  induction n as [| n IH]; intros k; simpl; [| rewrite IH]; reflexivity.
Qed.

Lemma set_row_filled (row : nat -> list R) (zero : list R) (t n : nat) :
  set_row (map row (seq 0 t) ++ repeat zero (S n)) t (row t)
  = Ok (map row (seq 0 (S t)) ++ repeat zero n).
Proof.
  unfold set_row.
  assert (Hlen : length (map row (seq 0 t)) = t).
  { rewrite length_map, length_seq. reflexivity. }
  rewrite length_app, Hlen, repeat_length.
  destruct (Nat.ltb_spec t (t + S n)) as [_ | H]; [| lia].
  f_equal.
  rewrite firstn_app, Hlen, Nat.sub_diag, firstn_O, app_nil_r.
  rewrite <- Hlen at 1. rewrite firstn_all.
  rewrite skipn_app, Hlen.
  rewrite skipn_all2 by (rewrite Hlen; lia).
  replace (S t - t)%nat with 1%nat by lia.
  rewrite (seq_S t 0), map_app, <- app_assoc. reflexivity.
Qed.

Lemma py_index_filled (row : nat -> list R) (rest : matrix) (t i : nat) :
  (i < t)%nat -> py_index (map row (seq 0 t) ++ rest) i = Ok (row i).
Proof.
  intros Hi. unfold py_index.
  rewrite nth_error_app1 by (rewrite length_map, length_seq; exact Hi).
  rewrite nth_error_map, nth_error_seq.
  destruct (Nat.ltb_spec i t) as [_ | H]; [reflexivity | lia].
Qed.

(** ** The step-vectorized simulator *)

Section VectorNumpyProps.

Variable draws : nat -> R.
Variables S0 K T r sigma : R.
Variables M I : nat.

(** The variate the generator hands to step [t] of path [i] when each step
    draws one vector of [I] variates. *)
Definition normal_at (t i : nat) : R := draws ((t - 1) * I + i)%nat.

Let level := euler_level S0 T r sigma M normal_at.
Let row (t : nat) : list R := map (fun i => level i t) (seq 0 I).

(** The array before step [t]: rows below [t] filled, the others zero. *)
Let filled (t : nat) : matrix :=
  map row (seq 0 t) ++ repeat (repeat 0 I) (M + 1 - t).

Lemma step_body_step (t : nat) :
  (1 <= t <= M)%nat -> 0 <= euler_dt T M ->
  step_body draws r sigma I (euler_dt T M) t (filled t) ((t - 1) * I)%nat
  = Ok (filled (S t), ((S t - 1) * I)%nat).
Proof.
  intros Ht Hdt. destruct t as [| t]; [lia |].
  unfold step_body, rand_bind, standard_normal, lift.
  replace (S t - 1)%nat with t by lia.
  replace (S (S t) - 1)%nat with (S t) by lia.
  unfold filled at 1. rewrite py_index_filled by lia.
  rewrite (py_sqrt_ok _ Hdt).
  assert (Hrow : vec_mul (row t)
                   (map exp
                      (map (fun zi => (r - 0.5 * sigma ^ 2) * euler_dt T M
                                      + sigma * sqrt (euler_dt T M) * zi)
                         (map draws (seq (t * I) I))))
                 = row (S t)).
  { rewrite map_seq_from, !map_map. unfold row. rewrite vec_mul_map.
    apply map_ext. intros i. unfold level at 2. simpl.
    unfold euler_step, normal_at. fold (level i t).
    replace (S t - 1)%nat with t by lia.
    do 3 f_equal; lra. }
  rewrite Hrow. unfold filled at 1.
  replace (M + 1 - S t)%nat with (S (M - S t)) by lia.
  rewrite set_row_filled.
  unfold filled. replace (M + 1 - S (S t))%nat with (M - S t)%nat by lia.
  do 2 f_equal. lia.
Qed.

Lemma simulate_levels_ok :
  (1 <= M)%nat -> 0 <= T ->
  simulate_levels draws S0 T r sigma M I 0%nat
  = Ok (map row (seq 0 (M + 1)), (M * I)%nat).
Proof.
  intros HM HT.
  pose proof (euler_dt_nonneg T M HM HT) as Hdt.
  unfold simulate_levels, rand_bind, lift.
  rewrite py_div_ok by (pose proof (INR_pos_nonzero M HM); lra).
  fold (euler_dt T M).
  assert (Hinit : set_row (np_zeros (M + 1) I) 0 (repeat S0 I)
                  = Ok (filled 1)).
  { unfold np_zeros. replace (M + 1)%nat with (S M) by lia.
    rewrite <- (map_const_seq S0 I).
    change (map (fun _ : nat => S0) (seq 0 I)) with (row 0).
    change (repeat (repeat 0 I) (S M))
      with (map row (seq 0 0) ++ repeat (repeat 0 I) (S M)).
    rewrite (set_row_filled row (repeat 0 I) 0 M).
    unfold filled. replace (M + 1 - 1)%nat with M by lia. reflexivity. }
  rewrite Hinit.
  pose proof (for_each_rand_inv filled (fun t => ((t - 1) * I)%nat)
                (step_body draws r sigma I (euler_dt T M)) M 1) as H.
  unfold range2. replace (M + 1 - 1)%nat with M by lia.
  simpl in H. rewrite H.
  - unfold filled. replace (M + 1 - S M)%nat with 0%nat by lia.
    simpl repeat. rewrite app_nil_r.
    replace (S M) with (M + 1)%nat by lia.
    replace (M - 0)%nat with M by lia. reflexivity.
  - intros t Ht. apply step_body_step; [lia | exact Hdt].
Qed.

Lemma np_estimator_ok (level' : nat -> nat -> R) :
  (1 <= I)%nat ->
  np_estimator K T r I
    (map (fun t => map (fun i => level' i t) (seq 0 I)) (seq 0 (M + 1)))
  = Ok (exp (- r * T)
        * (sum_upto (fun i => Rmax (level' i M - K) 0) I / INR I)).
Proof.
  intros HI. unfold np_estimator.
  replace (M + 1)%nat with (S M) by lia.
  rewrite (py_last_map_seq
             (fun t => map (fun i => level' i t) (seq 0 I)) M). simpl.
  rewrite map_map, py_sum_map_seq.
  pose proof (INR_pos_nonzero I HI).
  rewrite np_div_ok by lra.
  f_equal. field. lra.
Qed.

Lemma mcs_vector_numpy_ok :
  (1 <= M)%nat -> (1 <= I)%nat -> 0 <= T ->
  run (mcs_vector_numpy draws S0 K T r sigma M I)
  = Ok (mc_value S0 K T r sigma M I normal_at).
Proof.
  intros HM HI HT. unfold mcs_vector_numpy.
  rewrite (run_bind_lift _ _ _ _ (simulate_levels_ok HM HT)).
  unfold row. rewrite (np_estimator_ok level HI). reflexivity.
Qed.

End VectorNumpyProps.

(** ** The fully vectorized simulator *)

Section FullVectorProps.

Variable draws : nat -> R.
Variables S0 K T r sigma : R.
Variables M I : nat.

(** The variate at row [t] (from [0] to [M]) and column [i] of the
    [(M + 1, I)] array of draws. *)
Definition matrix_at (t i : nat) : R := draws (t * I + i)%nat.

(** The log-increment at row [t], column [i]. *)
Definition increment (t i : nat) : R :=
  (r - 0.5 * sigma ^ 2) * euler_dt T M
  + sigma * sqrt (euler_dt T M) * matrix_at t i.

(** The running sum of the increments down column [i], row [0] included. *)
Fixpoint increment_sum (i t : nat) : R :=
  match t with
  | O => increment 0 i
  | S t' => increment_sum i t' + increment (S t') i
  end.

(** The level the array holds at row [t], column [i], once row [0] has been
    overwritten. *)
Definition full_level (i t : nat) : R :=
  if (t =? 0)%nat then S0 else S0 * exp (increment_sum i t).

Lemma cumsum_from_rows (n k : nat) :
  cumsum_from (map (fun i => increment_sum i k) (seq 0 I))
    (map (fun t => map (fun i => increment t i) (seq 0 I)) (seq (S k) n))
  = map (fun t => map (fun i => increment_sum i t) (seq 0 I)) (seq (S k) n).
Proof.
  revert k. induction n as [| n IH]; intros k; simpl; [reflexivity |].
  rewrite vec_add_map.
  change (map (fun x => increment_sum x k + increment (S k) x) (seq 0 I))
    with (map (fun i => increment_sum i (S k)) (seq 0 I)).
  rewrite IH. reflexivity.
Qed.

Lemma cumsum_axis0_rows (n : nat) :
  cumsum_axis0
    (map (fun t => map (fun i => increment t i) (seq 0 I)) (seq 0 (S n)))
  = map (fun t => map (fun i => increment_sum i t) (seq 0 I)) (seq 0 (S n)).
Proof.
  simpl.
  change (map (fun i => increment 0 i) (seq 0 I))
    with (map (fun i => increment_sum i 0) (seq 0 I)).
  rewrite cumsum_from_rows. reflexivity.
Qed.

Lemma simulate_levels_full_ok :
  (1 <= M)%nat -> 0 <= T ->
  simulate_levels_full draws S0 T r sigma M I 0%nat
  = Ok (map (fun t => map (fun i => full_level i t) (seq 0 I))
          (seq 0 (M + 1)),
        ((M + 1) * I)%nat).
Proof.
  intros HM HT.
  pose proof (euler_dt_nonneg T M HM HT) as Hdt.
  unfold simulate_levels_full, rand_bind, lift, standard_normal2.
  rewrite py_div_ok by (pose proof (INR_pos_nonzero M HM); lra).
  fold (euler_dt T M). rewrite (py_sqrt_ok _ Hdt).
  replace (M + 1)%nat with (S M) by lia.
  assert (Hinc : map (map (fun z => (r - 0.5 * sigma ^ 2) * euler_dt T M
                                    + sigma * sqrt (euler_dt T M) * z))
                   (map (fun t => map draws (seq (0 + t * I) I))
                      (seq 0 (S M)))
                 = map (fun t => map (fun i => increment t i) (seq 0 I))
                     (seq 0 (S M))).
  { rewrite map_map. apply map_ext. intros t.
    rewrite map_seq_from, map_map. reflexivity. }
  rewrite Hinc, cumsum_axis0_rows, map_map.
  unfold set_row. rewrite length_map, length_seq. simpl Nat.ltb.
  change (0 <? S M)%nat with true. cbv iota.
  simpl seq. simpl map. simpl firstn. simpl skipn. simpl app.
  do 2 f_equal. f_equal.
  - unfold full_level. simpl. symmetry. apply map_const_seq.
  - apply map_ext_in. intros t Ht. rewrite map_map. apply map_ext.
    intros i. unfold full_level.
    apply in_seq in Ht.
    destruct (Nat.eqb_spec t 0) as [E | _]; [lia | reflexivity].
Qed.

(** Every level below the first row carries the increment of row [0] on top
    of the Euler steps [1] to [t]. *)
Lemma full_level_extra_step (i t : nat) :
  S0 * exp (increment_sum i t)
  = euler_step T r sigma M (euler_level S0 T r sigma M matrix_at i t)
      (matrix_at 0 i).
Proof.
  induction t as [| t IH].
  - simpl. unfold euler_step, increment. do 2 f_equal. lra.
  - simpl increment_sum. rewrite exp_plus, <- Rmult_assoc, IH.
    simpl euler_level. unfold euler_step, increment.
    replace ((r - 0.5 * sigma ^ 2) * euler_dt T M)
      with ((r - sigma ^ 2 / 2) * euler_dt T M) by lra.
    ring.
Qed.

Lemma mcs_full_vector_numpy_ok :
  (1 <= M)%nat -> (1 <= I)%nat -> 0 <= T ->
  run (mcs_full_vector_numpy draws S0 K T r sigma M I)
  = Ok (exp (- r * T)
        * (sum_upto
             (fun i =>
                Rmax (euler_step T r sigma M
                        (euler_level S0 T r sigma M matrix_at i M)
                        (matrix_at 0 i) - K) 0) I
           / INR I)).
Proof.
  intros HM HI HT. unfold mcs_full_vector_numpy.
  rewrite (run_bind_lift _ _ _ _ (simulate_levels_full_ok HM HT)).
  rewrite (np_estimator_ok K T r M I full_level HI).
  do 3 f_equal.
  assert (Hext : forall n,
             sum_upto (fun i => Rmax (full_level i M - K) 0) n
             = sum_upto
                 (fun i =>
                    Rmax (euler_step T r sigma M
                            (euler_level S0 T r sigma M matrix_at i M)
                            (matrix_at 0 i) - K) 0) n).
  { induction n as [| n IHn]; simpl; [reflexivity |].
    rewrite IHn. do 3 f_equal. unfold full_level.
    destruct (Nat.eqb_spec M 0) as [E | _]; [lia |].
    apply full_level_extra_step. }
  apply Hext.
Qed.

End FullVectorProps.

(** ** The three simulators compared *)

Lemma euler_level_ext (S0 T r sigma : R) (M : nat) (z1 z2 : nat -> nat -> R)
  (i t : nat) :
  (forall u, (1 <= u <= t)%nat -> z1 u i = z2 u i) ->
  euler_level S0 T r sigma M z1 i t = euler_level S0 T r sigma M z2 i t.
Proof.
  induction t as [| t IH]; intros Hz; simpl; [reflexivity |].
  rewrite IH by (intros u Hu; apply Hz; lia).
  rewrite (Hz (S t)) by lia. reflexivity.
Qed.

Lemma sum_upto_ext (f g : nat -> R) (n : nat) :
  (forall i, (i < n)%nat -> f i = g i) -> sum_upto f n = sum_upto g n.
Proof.
  induction n as [| n IH]; intros Hfg; simpl; [reflexivity |].
  rewrite IH by (intros i Hi; apply Hfg; lia).
  rewrite (Hfg n) by lia. reflexivity.
Qed.

Lemma mc_value_ext (S0 K T r sigma : R) (M I : nat)
  (z1 z2 : nat -> nat -> R) :
  (forall t i, (1 <= t <= M)%nat -> (i < I)%nat -> z1 t i = z2 t i) ->
  mc_value S0 K T r sigma M I z1 = mc_value S0 K T r sigma M I z2.
Proof.
  intros Hz. unfold mc_value. do 2 f_equal.
  apply sum_upto_ext. intros i Hi. unfold payoff.
  rewrite (euler_level_ext S0 T r sigma M z1 z2 i M); [reflexivity |].
  intros u Hu. apply Hz; assumption.
Qed.

(** The sequential and the step-vectorized simulators agree as soon as their
    generators hand the same variate to every step of every path. *)
Lemma mcs_pure_python_vector_numpy (draws_py draws_np : nat -> R)
  (S0 K T r sigma : R) (M I : nat) :
  (1 <= M)%nat -> (1 <= I)%nat -> 0 <= T ->
  (forall t i, (1 <= t <= M)%nat -> (i < I)%nat ->
               gauss_at draws_py M t i = normal_at draws_np I t i) ->
  run (mcs_pure_python draws_py S0 K T r sigma M I)
  = run (mcs_vector_numpy draws_np S0 K T r sigma M I).
Proof.
  intros HM HI HT Hz.
  destruct (pure_python_run_ok draws_py S0 K T r sigma M I HM HI HT)
    as [_ Hpy].
  rewrite Hpy, (mcs_vector_numpy_ok draws_np S0 K T r sigma M I HM HI HT).
  f_equal. apply mc_value_ext. exact Hz.
Qed.

Lemma exp_003_006 : 100 * exp 0.03 < 105 /\ 105 < 100 * exp 0.06.
Proof.
  pose proof (exp_ineq1 0.06) as H6.
  pose proof (exp_ineq1 (- 0.03)) as H3.
  pose proof (exp_pos 0.03) as Hp.
  assert (Hinv : exp 0.03 * exp (- 0.03) = 1).
  { rewrite <- exp_plus, <- exp_0. f_equal. lra. }
  assert (H6' : 1 + 0.06 < exp 0.06) by (apply H6; lra).
  assert (H3' : 1 + - 0.03 < exp (- 0.03)) by (apply H3; lra).
  split; [nra | lra].
Qed.

(** With one step, one path and every variate equal to zero, the Euler
    level after the step is [100 * exp 0.03]. *)
Lemma one_step_level (z : nat -> nat -> R) :
  z 1%nat 0%nat = 0 ->
  euler_level 100 1 0.05 0.2 1 z 0 1 = 100 * exp 0.03.
Proof.
  intros Hz. simpl. unfold euler_step, euler_dt. rewrite Hz. simpl INR.
  f_equal. f_equal. lra.
Qed.

(** C2, at [S0 = 100], [K = 105], [T = 1], [r = 0.05], [sigma = 0.2],
    [M = 1], [I = 1] and every variate equal to zero: the sequential and the
    step-vectorized simulators end the path at [100 * exp 0.03], below the
    strike, and value the option at [0]; the fully vectorized simulator
    ends it at [100 * exp 0.06], above the strike, and values the option
    at a positive amount.  The three do not compute the same function. *)
Theorem mcs_full_vector_numpy_differs :
  run (simulate_paths (fun _ => 0) 100 1 0.05 0.2 1 1)
  = Ok [[100; 100 * exp 0.03]]
  /\ run (simulate_levels (fun _ => 0) 100 1 0.05 0.2 1 1)
     = Ok [[100]; [100 * exp 0.03]]
  /\ run (simulate_levels_full (fun _ => 0) 100 1 0.05 0.2 1 1)
     = Ok [[100]; [100 * exp 0.06]]
  /\ 100 * exp 0.03 < 105 < 100 * exp 0.06
  /\ run (mcs_pure_python (fun _ => 0) 100 105 1 0.05 0.2 1 1) = Ok 0
  /\ run (mcs_vector_numpy (fun _ => 0) 100 105 1 0.05 0.2 1 1) = Ok 0
  /\ run (mcs_full_vector_numpy (fun _ => 0) 100 105 1 0.05 0.2 1 1)
     = Ok (exp (- (0.05) * 1) * (100 * exp 0.06 - 105))
  /\ 0 < exp (- (0.05) * 1) * (100 * exp 0.06 - 105).
Proof.
  destruct exp_003_006 as [Hlo Hhi].
  assert (HM : (1 <= 1)%nat) by lia.
  assert (HT : 0 <= 1) by lra.
  destruct (pure_python_run_ok (fun _ => 0) 100 105 1 0.05 0.2 1 1
              HM HM HT) as [Hpaths Hpy].
  pose proof (mcs_vector_numpy_ok (fun _ => 0) 100 105 1 0.05 0.2 1 1
                HM HM HT) as Hnp.
  pose proof (mcs_full_vector_numpy_ok (fun _ => 0) 100 105 1 0.05 0.2 1 1
                HM HM HT) as Hfull.
  assert (Hval : forall z, z 1%nat 0%nat = 0 ->
                 mc_value 100 105 1 0.05 0.2 1 1 z = 0).
  { intros z Hz. unfold mc_value.
    change (sum_upto (payoff 100 105 1 0.05 0.2 1 z) 1)
      with (0 + payoff 100 105 1 0.05 0.2 1 z 0).
    unfold payoff.
    rewrite (one_step_level z Hz), Rmax_right by lra.
    simpl INR. lra. }
  assert (Hstep : euler_step 1 0.05 0.2 1 (100 * exp 0.03) 0
                  = 100 * exp 0.06).
  { unfold euler_step, euler_dt. simpl INR.
    rewrite Rmult_assoc, <- exp_plus. do 2 f_equal. lra. }
  repeat split.
  - rewrite Hpaths. cbv [euler_path map seq Nat.add].
    rewrite one_step_level by reflexivity. reflexivity.
  - rewrite (run_ok _ _ _
               (simulate_levels_ok (fun _ => 0) 100 1 0.05 0.2 1 1 HM HT)).
    cbv [map seq Nat.add]. rewrite one_step_level by reflexivity.
    reflexivity.
  - rewrite (run_ok _ _ _
               (simulate_levels_full_ok (fun _ => 0) 100 1 0.05 0.2 1 1
                  HM HT)).
    cbv [map seq Nat.add full_level Nat.eqb].
    rewrite full_level_extra_step.
    rewrite one_step_level by reflexivity.
    unfold matrix_at. rewrite Hstep. reflexivity.
  - exact Hlo.
  - exact Hhi.
  - rewrite Hpy, Hval by reflexivity. reflexivity.
  - rewrite Hnp, Hval by reflexivity. reflexivity.
  - rewrite Hfull. f_equal. cbv [sum_upto].
    rewrite one_step_level by reflexivity.
    unfold matrix_at. rewrite Hstep, Rmax_left by lra.
    simpl INR. lra.
  - apply Rmult_lt_0_compat; [apply exp_pos | lra].
Qed.

(** * Further properties of the code *)

(** ** The domain of the pricer and of [bsm_vega] *)

Lemma bsm_d1_ok_inv (S0 K T r sigma d : R) :
  bsm_d1 S0 K T r sigma = Ok d ->
  K <> 0 /\ 0 < S0 / K /\ 0 < T /\ sigma <> 0.
Proof.
  unfold bsm_d1, py_div at 1.
  destruct (Req_dec_T K 0) as [HK | HK]; cbv [bind]; [discriminate |].
  unfold py_log. destruct (Rlt_dec 0 (S0 / K)) as [HSK | HSK];
    [| discriminate].
  unfold py_sqrt. destruct (Rle_dec 0 T) as [HT | HT]; [| discriminate].
  unfold py_div. destruct (Req_dec_T (sigma * sqrt T) 0) as [E | E];
    [discriminate |].
  intros _. repeat split; try assumption.
  - destruct HT as [HT | <-]; [exact HT |].
    exfalso. apply E. rewrite sqrt_0. ring.
  - intros ->. apply E. ring.
Qed.

(** X1: [bsm_call_value] returns a number exactly when [K] is not zero,
    [S0 / K] is positive, [T] is positive and [sigma] is not zero; on every
    other input it raises. *)
Theorem bsm_call_value_domain (S0 K T r sigma : R) :
  (exists v, bsm_call_value S0 K T r sigma = Ok v)
  <-> (K <> 0 /\ 0 < S0 / K /\ 0 < T /\ sigma <> 0).
Proof.
  split.
  - intros [v Hv]. unfold bsm_call_value in Hv.
    destruct (bsm_d1 S0 K T r sigma) as [d |] eqn:Hd; [| discriminate].
    apply (bsm_d1_ok_inv S0 K T r sigma d Hd).
  - intros [HK [HSK [HT Hs]]]. eexists.
    apply bsm_call_value_ok; assumption.
Qed.

(** X2: which exception the pricer raises.  A zero strike gives
    [ZeroDivisionError]; otherwise a non-positive [S0 / K] gives
    [ValueError] (from [log]); otherwise a negative maturity gives
    [ValueError] (from [sqrt]); otherwise a zero maturity or a zero
    volatility gives [ZeroDivisionError]. *)
Theorem bsm_call_value_exception (S0 K T r sigma : R) :
  (K = 0 -> bsm_call_value S0 K T r sigma = Raise ZeroDivisionError)
  /\ (K <> 0 -> S0 / K <= 0 ->
      bsm_call_value S0 K T r sigma = Raise ValueError)
  /\ (K <> 0 -> 0 < S0 / K -> T < 0 ->
      bsm_call_value S0 K T r sigma = Raise ValueError)
  /\ (K <> 0 -> 0 < S0 / K -> T = 0 \/ (0 < T /\ sigma = 0) ->
      bsm_call_value S0 K T r sigma = Raise ZeroDivisionError).
Proof.
  unfold bsm_call_value, bsm_d1. repeat split.
  - intros ->. rewrite py_div_zero. reflexivity.
  - intros HK HSK. rewrite py_div_ok by exact HK. cbv [bind].
    unfold py_log. destruct (Rlt_dec 0 (S0 / K)); [lra | reflexivity].
  - intros HK HSK HT. rewrite py_div_ok by exact HK. cbv [bind].
    rewrite py_log_ok by exact HSK. rewrite py_sqrt_neg by exact HT.
    reflexivity.
  - intros HK HSK H. rewrite py_div_ok by exact HK. cbv [bind].
    rewrite py_log_ok by exact HSK.
    assert (HT : 0 <= T) by (destruct H as [-> | [H _]]; lra).
    rewrite py_sqrt_ok by exact HT.
    assert (E : sigma * sqrt T = 0).
    { destruct H as [-> | [_ ->]]; [rewrite sqrt_0 |]; ring. }
    rewrite E, py_div_zero. reflexivity.
Qed.

Lemma bsm_call_value_exception_witness :
  bsm_call_value 100 0 1 0.05 0.2 = Raise ZeroDivisionError
  /\ bsm_call_value (-100) 105 1 0.05 0.2 = Raise ValueError
  /\ bsm_call_value 100 105 (-1) 0.05 0.2 = Raise ValueError
  /\ bsm_call_value 100 105 0 0.05 0.2 = Raise ZeroDivisionError.
Proof.
  destruct (bsm_call_value_exception 100 0 1 0.05 0.2) as [H1 _].
  destruct (bsm_call_value_exception (-100) 105 1 0.05 0.2) as [_ [H2 _]].
  destruct (bsm_call_value_exception 100 105 (-1) 0.05 0.2)
    as [_ [_ [H3 _]]].
  destruct (bsm_call_value_exception 100 105 0 0.05 0.2) as [_ [_ [_ H4]]].
  split; [apply H1; reflexivity |].
  split; [apply H2; lra |].
  split; [apply H3; lra |].
  apply H4; [lra | lra | left; reflexivity].
Defined.

(** X3: [bsm_vega] fails exactly when [bsm_call_value] fails, and with the
    same exception. *)
Theorem bsm_vega_raises_like_pricer (S0 K T r sigma : R) (e : pyerr) :
  bsm_vega S0 K T r sigma = Raise e
  <-> bsm_call_value S0 K T r sigma = Raise e.
Proof.
  unfold bsm_vega, bsm_call_value.
  destruct (bsm_d1 S0 K T r sigma) as [d |] eqn:Hd; cbv [bind];
    [| reflexivity].
  destruct (bsm_d1_ok_inv S0 K T r sigma d Hd) as [HK [HSK [HT Hs]]].
  rewrite (bsm_d2_ok S0 K T r sigma HK HSK HT Hs).
  rewrite (py_sqrt_ok T (Rlt_le _ _ HT)).
  split; discriminate.
Qed.

(** ** The solver: composition, fixed points and failures *)

Lemma imp_vol_loop_shift (S0 K T r C0 : R) (n k k' : nat) (sigma : R) :
  for_each (seq k n) (imp_vol_body S0 K T r C0) sigma
  = for_each (seq k' n) (imp_vol_body S0 K T r C0) sigma.
Proof.
  revert k k' sigma. induction n as [| n IH]; intros k k' sigma; simpl;
    [reflexivity |].
  rewrite !imp_vol_body_update.
  destruct (newton_update S0 K T r C0 sigma) as [s | e]; simpl;
    [apply IH | reflexivity].
Qed.

Lemma imp_vol_loop_compose (S0 K T r C0 sigma_est : R) (a b : nat) :
  bsm_call_imp_vol S0 K T r C0 sigma_est (a + b)
  = (s <- bsm_call_imp_vol S0 K T r C0 sigma_est a ;;
     bsm_call_imp_vol S0 K T r C0 s b).
Proof.
  unfold bsm_call_imp_vol, range.
  rewrite seq_app, for_each_app.
  destruct (for_each (seq 0 a) (imp_vol_body S0 K T r C0) sigma_est)
    as [s | e]; simpl; [| reflexivity].
  apply imp_vol_loop_shift.
Qed.

(** X4: the solver keeps no state between iterations: [a + b] iterations
    from a guess are [a] iterations followed by [b] iterations from the
    value they return, and a failure of the first run is the failure of the
    whole. *)
Theorem bsm_call_imp_vol_compose (S0 K T r C0 sigma_est : R) (a b : nat) :
  bsm_call_imp_vol S0 K T r C0 sigma_est (a + b)
  = (s <- bsm_call_imp_vol S0 K T r C0 sigma_est a ;;
     bsm_call_imp_vol S0 K T r C0 s b).
Proof. apply imp_vol_loop_compose. Qed.

Lemma bsm_call_imp_vol_succ (S0 K T r C0 sigma_est : R) (n : nat) :
  bsm_call_imp_vol S0 K T r C0 sigma_est (S n)
  = (s <- bsm_call_imp_vol S0 K T r C0 sigma_est n ;;
     newton_update S0 K T r C0 s).
Proof.
  unfold bsm_call_imp_vol, range.
  rewrite seq_S, for_each_app.
  destruct (for_each (seq 0 n) (imp_vol_body S0 K T r C0) sigma_est)
    as [s | e]; simpl; [| reflexivity].
  rewrite imp_vol_body_update.
  destruct (newton_update S0 K T r C0 s); reflexivity.
Qed.

(** X5: on the pricer's domain, one iteration leaves the guess unchanged
    exactly when the pricer reproduces the market price at that guess: the
    distribution function in [bsm_vega] changes the path of the iteration,
    not its fixed points. *)
Theorem bsm_call_imp_vol_fixed_iff (S0 K T r C0 sigma : R) :
  0 < S0 -> 0 < K -> 0 < T -> sigma <> 0 ->
  (bsm_call_imp_vol S0 K T r C0 sigma 1 = Ok sigma
   <-> bsm_call_value S0 K T r sigma = Ok C0).
Proof.
  intros HS HK HT Hs. destruct (ratio_pos S0 K HS HK) as [HK0 HSK].
  destruct (newton_update_ok S0 K T r C0 sigma HS HK0 HSK HT Hs)
    as [p [g [Hp [_ [Hg Hu]]]]].
  rewrite (bsm_call_imp_vol_succ S0 K T r C0 sigma 0).
  change (bsm_call_imp_vol S0 K T r C0 sigma 0) with (Ok sigma).
  cbv [bind]. rewrite Hu, Hp. split; intros H; injection H as H.
  - f_equal.
    assert (Hq : (p - C0) / g = 0) by lra.
    apply (Rmult_eq_compat_r g) in Hq.
    replace ((p - C0) / g * g) with (p - C0) in Hq by (field; lra).
    lra.
  - f_equal. subst p. field. lra.
Qed.

Lemma bsm_call_imp_vol_fixed_iff_witness :
  bsm_call_imp_vol 100 105 1 0.05 8 0.2 1 = Ok 0.2
  <-> bsm_call_value 100 105 1 0.05 0.2 = Ok 8.
Proof.
  apply (bsm_call_imp_vol_fixed_iff 100 105 1 0.05 8 0.2); lra.
Defined.




(** ** The pricer as a function of the volatility *)

(** The number a call leaves, for reading a Python function as a real
    function where it does not raise. *)
Definition value_of (m : result R) : R :=
  match m with
  | Ok v => v
  | Raise _ => 0
  end.

(** A derivative only depends on the function near the point. *)
Lemma derivable_pt_lim_locally (f g : R -> R) (x l d : R) :
  0 < d ->
  (forall y, Rabs (y - x) < d -> f y = g y) ->
  derivable_pt_lim g x l -> derivable_pt_lim f x l.
Proof.
  intros Hd Hfg Hg eps Heps.
  destruct (Hg eps Heps) as [delta Hdelta].
  assert (Hm : 0 < Rmin delta d).
  { apply Rmin_pos; [apply cond_pos | exact Hd]. }
  exists (mkposreal _ Hm); simpl; intros h Hh Hlt.
  assert (H1 : Rabs h < d).
  { eapply Rlt_le_trans; [exact Hlt | apply Rmin_r]. }
  assert (H2 : Rabs h < delta).
  { eapply Rlt_le_trans; [exact Hlt | apply Rmin_l]. }
  rewrite (Hfg (x + h)) by (replace (x + h - x) with h by ring; exact H1).
  rewrite (Hfg x) by (rewrite Rminus_diag, Rabs_R0; exact Hd).
  apply Hdelta; assumption.
Qed.

Lemma d_rate_gap (l r s q T : R) :
  s <> 0 -> q <> 0 -> q * q = T ->
  (s * T * (s * q) - q * (l + (r + s ^ 2 / 2) * T)) / Rsqr (s * q)
  - (- s * T * (s * q) - q * (l + (r - s ^ 2 / 2) * T)) / Rsqr (s * q)
  = q.
Proof. intros Hs Hq <-. unfold Rsqr. field. split; assumption. Qed.

Section PriceInVolatility.

Variables S0 K T r : R.
Hypothesis HS : 0 < S0.
Hypothesis HK : 0 < K.
Hypothesis HT : 0 < T.

(** [d1] and [d2] as functions of the volatility. *)
Definition d_plus (s : R) : R :=
  (ln (S0 / K) + (r + s ^ 2 / 2) * T) / (s * sqrt T).

Definition d_minus (s : R) : R :=
  (ln (S0 / K) + (r - s ^ 2 / 2) * T) / (s * sqrt T).

Definition price_formula (s : R) : R :=
  S0 * Normal.norm_cdf (d_plus s)
  - K * exp (- r * T) * Normal.norm_cdf (d_minus s).

Lemma price_formula_code (s : R) :
  s <> 0 -> value_of (bsm_call_value S0 K T r s) = price_formula s.
Proof.
  intros Hs. destruct (ratio_pos S0 K HS HK) as [HK0 HSK].
  rewrite (bsm_call_value_ok S0 K T r s HK0 HSK HT Hs). simpl.
  unfold price_formula, d_plus, d_minus.
  f_equal; [do 2 f_equal | do 2 f_equal]; f_equal; lra.
Qed.

Lemma derivable_pt_lim_numerator (c : R) (s : R) :
  derivable_pt_lim (fun y => ln (S0 / K) + (r + c * (y ^ 2 / 2)) * T) s
    (c * s * T).
Proof.
  replace (c * s * T) with (0 + (0 + c * (INR 2 * s ^ pred 2 * / 2)) * T)
    by (simpl; field).
  apply (derivable_pt_lim_plus (fct_cte (ln (S0 / K)))
           (fun y => (r + c * (y ^ 2 / 2)) * T)).
  - apply derivable_pt_lim_const.
  - apply (derivable_pt_lim_scal_right (fun y => r + c * (y ^ 2 / 2))).
    apply (derivable_pt_lim_plus (fct_cte r) (fun y => c * (y ^ 2 / 2))).
    + apply derivable_pt_lim_const.
    + apply (derivable_pt_lim_scal (fun y => y ^ 2 / 2) c).
      apply (derivable_pt_lim_scal_right (fun y => y ^ 2)).
      apply derivable_pt_lim_pow.
Qed.

Lemma derivable_pt_lim_d (c : R) (s : R) :
  s <> 0 ->
  derivable_pt_lim
    (fun y => (ln (S0 / K) + (r + c * (y ^ 2 / 2)) * T) / (y * sqrt T)) s
    ((c * s * T * (s * sqrt T)
      - sqrt T * (ln (S0 / K) + (r + c * (s ^ 2 / 2)) * T))
     / Rsqr (s * sqrt T)).
Proof.
  intros Hs. pose proof (sqrt_lt_R0 T HT) as Hq.
  apply (derivable_pt_lim_div
           (fun y => ln (S0 / K) + (r + c * (y ^ 2 / 2)) * T)
           (fun y => y * sqrt T)).
  - apply derivable_pt_lim_numerator.
  - assert (H : derivable_pt_lim (fun y => id y * sqrt T) s (1 * sqrt T)).
    { apply (derivable_pt_lim_scal_right id). apply derivable_pt_lim_id. }
    rewrite Rmult_1_l in H. exact H.
  - intros E. apply Rmult_integral in E. destruct E; [contradiction | lra].
Qed.

Lemma derivable_pt_lim_d_plus (s : R) :
  s <> 0 ->
  derivable_pt_lim d_plus s
    ((s * T * (s * sqrt T)
      - sqrt T * (ln (S0 / K) + (r + s ^ 2 / 2) * T))
     / Rsqr (s * sqrt T)).
Proof.
  intros Hs.
  apply (derivable_pt_lim_ext
           (fun y => (ln (S0 / K) + (r + 1 * (y ^ 2 / 2)) * T)
                     / (y * sqrt T))).
  { intros y. unfold d_plus. do 3 f_equal. lra. }
  replace (s * T * (s * sqrt T)) with (1 * s * T * (s * sqrt T)) by ring.
  replace (r + s ^ 2 / 2) with (r + 1 * (s ^ 2 / 2)) by ring.
  apply derivable_pt_lim_d. exact Hs.
Qed.

Lemma derivable_pt_lim_d_minus (s : R) :
  s <> 0 ->
  derivable_pt_lim d_minus s
    ((- s * T * (s * sqrt T)
      - sqrt T * (ln (S0 / K) + (r - s ^ 2 / 2) * T))
     / Rsqr (s * sqrt T)).
Proof.
  intros Hs.
  apply (derivable_pt_lim_ext
           (fun y => (ln (S0 / K) + (r + -1 * (y ^ 2 / 2)) * T)
                     / (y * sqrt T))).
  { intros y. unfold d_minus. do 3 f_equal. lra. }
  replace (- s * T * (s * sqrt T)) with (-1 * s * T * (s * sqrt T)) by ring.
  replace (r - s ^ 2 / 2) with (r + -1 * (s ^ 2 / 2)) by ring.
  apply derivable_pt_lim_d. exact Hs.
Qed.

(** [S0 * phi(d1) = K * exp(-r T) * phi(d2)]. *)
Lemma density_balance (s : R) :
  s <> 0 ->
  K * exp (- r * T) * Normal.norm_pdf (d_minus s)
  = S0 * Normal.norm_pdf (d_plus s).
Proof.
  intros Hs. pose proof (sqrt_lt_R0 T HT) as Hq.
  assert (HTT : sqrt T * sqrt T = T) by (apply sqrt_sqrt; lra).
  assert (Hgap : d_plus s * d_plus s / 2
                 = d_minus s * d_minus s / 2 + (ln (S0 / K) + r * T)).
  { unfold d_plus, d_minus.
    apply (half_squares_gap (ln (S0 / K)) r s (sqrt T) T); lra. }
  unfold Normal.norm_pdf, Normal.kernel.
  replace (- (d_minus s * d_minus s / 2))
    with (- (d_plus s * d_plus s / 2) + (ln (S0 / K) + r * T)) by lra.
  rewrite !exp_plus.
  rewrite exp_ln by (apply Rdiv_lt_0_compat; assumption).
  replace (- r * T) with (- (r * T)) by ring. rewrite exp_Ropp.
  pose proof (exp_pos (r * T)). pose proof Normal.sqrt_2pi_pos.
  field. repeat split; lra.
Qed.

Lemma derivable_pt_lim_price_formula (s : R) :
  s <> 0 ->
  derivable_pt_lim price_formula s
    (S0 * Normal.norm_pdf (d_plus s) * sqrt T).
Proof.
  intros Hs. pose proof (sqrt_lt_R0 T HT) as Hq.
  assert (HTT : sqrt T * sqrt T = T) by (apply sqrt_sqrt; lra).
  set (D1 := (s * T * (s * sqrt T)
              - sqrt T * (ln (S0 / K) + (r + s ^ 2 / 2) * T))
             / Rsqr (s * sqrt T)).
  set (D2 := (- s * T * (s * sqrt T)
              - sqrt T * (ln (S0 / K) + (r - s ^ 2 / 2) * T))
             / Rsqr (s * sqrt T)).
  assert (Hdiff : D1 - D2 = sqrt T).
  { unfold D1, D2. apply d_rate_gap; lra. }
  replace (S0 * Normal.norm_pdf (d_plus s) * sqrt T)
    with (S0 * (Normal.norm_pdf (d_plus s) * D1)
          - K * exp (- r * T) * (Normal.norm_pdf (d_minus s) * D2)).
  - unfold price_formula.
    apply (derivable_pt_lim_minus
             (fun y => S0 * Normal.norm_cdf (d_plus y))
             (fun y => K * exp (- r * T) * Normal.norm_cdf (d_minus y))).
    + apply (derivable_pt_lim_scal
               (fun y => Normal.norm_cdf (d_plus y)) S0).
      apply (derivable_pt_lim_comp d_plus Normal.norm_cdf).
      * apply derivable_pt_lim_d_plus. exact Hs.
      * apply Normal.derivable_pt_lim_norm_cdf.
    + apply (derivable_pt_lim_scal
               (fun y => Normal.norm_cdf (d_minus y)) (K * exp (- r * T))).
      apply (derivable_pt_lim_comp d_minus Normal.norm_cdf).
      * apply derivable_pt_lim_d_minus. exact Hs.
      * apply Normal.derivable_pt_lim_norm_cdf.
  - rewrite <- Hdiff.
    rewrite <- (Rmult_assoc (K * exp (- r * T))), (density_balance s Hs).
    ring.
Qed.

End PriceInVolatility.

Lemma price_formula_incr (S0 K T r s1 s2 : R) :
  0 < S0 -> 0 < K -> 0 < T -> 0 < s1 -> s1 < s2 ->
  price_formula S0 K T r s1 < price_formula S0 K T r s2.
Proof.
  intros HS HK HT H1 H12.
  apply (Normal.deriv_pos_incr (price_formula S0 K T r)
           (fun s => S0 * Normal.norm_pdf (d_plus S0 K T r s) * sqrt T)
           s1 s2 H12).
  - intros c Hc. apply derivable_pt_lim_price_formula; try assumption. lra.
  - intros c _. apply Rmult_lt_0_compat; [| apply sqrt_lt_R0; exact HT].
    apply Rmult_lt_0_compat; [exact HS | apply Normal.norm_pdf_pos].
Qed.

Lemma bsm_call_value_formula (S0 K T r s : R) :
  0 < S0 -> 0 < K -> 0 < T -> s <> 0 ->
  bsm_call_value S0 K T r s = Ok (price_formula S0 K T r s).
Proof.
  intros HS HK HT Hs.
  pose proof (price_formula_code S0 K T r HS HK HT s Hs) as H.
  destruct (ratio_pos S0 K HS HK) as [HK0 HSK].
  rewrite (bsm_call_value_ok S0 K T r s HK0 HSK HT Hs) in *.
  cbv [value_of] in H. rewrite H. reflexivity.
Qed.

(** X7: for [S0, K, T > 0] and a non-zero volatility, the derivative of the
    value [bsm_call_value] returns, taken with respect to [sigma], is
    [S0 * phi(d1) * sqrt(T)] with the density [phi]: the partial derivative
    that the docstring of [bsm_vega] announces is the density formula, not
    the value [bsm_vega] returns. *)
Theorem bsm_call_value_derivative (S0 K T r sigma : R) :
  0 < S0 -> 0 < K -> 0 < T -> sigma <> 0 ->
  derivable_pt_lim (fun s => value_of (bsm_call_value S0 K T r s)) sigma
    (density_vega S0 K T r sigma).
Proof.
  intros HS HK HT Hs.
  apply (derivable_pt_lim_locally _ (price_formula S0 K T r) sigma _
           (Rabs sigma)).
  - apply Rabs_pos_lt. exact Hs.
  - intros y Hy. apply price_formula_code; try assumption.
    intros ->. rewrite Rminus_0_l, Rabs_Ropp in Hy. lra.
  - apply derivable_pt_lim_price_formula; assumption.
Qed.

Lemma bsm_call_value_derivative_witness :
  derivable_pt_lim (fun s => value_of (bsm_call_value 100 105 1 0.05 s)) 0.2
    (density_vega 100 105 1 0.05 0.2).
Proof.
  apply (bsm_call_value_derivative 100 105 1 0.05 0.2); lra.
Defined.

(** X8: for [S0, K, T > 0] the pricer is strictly increasing in the
    volatility over the positive volatilities. *)
Theorem bsm_call_value_increasing (S0 K T r s1 s2 : R) :
  0 < S0 -> 0 < K -> 0 < T -> 0 < s1 -> s1 < s2 ->
  exists v1 v2,
    bsm_call_value S0 K T r s1 = Ok v1
    /\ bsm_call_value S0 K T r s2 = Ok v2
    /\ v1 < v2.
Proof.
  intros HS HK HT H1 H12.
  exists (price_formula S0 K T r s1), (price_formula S0 K T r s2).
  split; [apply bsm_call_value_formula; try assumption; lra |].
  split; [apply bsm_call_value_formula; try assumption; lra |].
  apply price_formula_incr; assumption.
Qed.

Lemma bsm_call_value_increasing_witness :
  exists v1 v2,
    bsm_call_value 100 105 1 0.05 0.2 = Ok v1
    /\ bsm_call_value 100 105 1 0.05 0.3 = Ok v2
    /\ v1 < v2.
Proof.
  apply (bsm_call_value_increasing 100 105 1 0.05 0.2 0.3); lra.
Defined.

(** X9: for [S0, K, T > 0] at most one positive volatility reproduces a
    given price: two positive volatilities at which [bsm_call_value]
    returns the same value are equal. *)
Theorem implied_volatility_unique (S0 K T r C s1 s2 : R) :
  0 < S0 -> 0 < K -> 0 < T -> 0 < s1 -> 0 < s2 ->
  bsm_call_value S0 K T r s1 = Ok C ->
  bsm_call_value S0 K T r s2 = Ok C ->
  s1 = s2.
Proof.
  intros HS HK HT H1 H2 E1 E2.
  rewrite bsm_call_value_formula in E1 by (try assumption; lra).
  rewrite bsm_call_value_formula in E2 by (try assumption; lra).
  injection E1 as E1. injection E2 as E2.
  destruct (Rtotal_order s1 s2) as [Hlt | [Heq | Hgt]]; [| exact Heq |].
  - pose proof (price_formula_incr S0 K T r s1 s2 HS HK HT H1 Hlt). lra.
  - pose proof (price_formula_incr S0 K T r s2 s1 HS HK HT H2 Hgt). lra.
Qed.

Lemma implied_volatility_unique_witness : 0.2 = 0.2.
Proof.
  apply (implied_volatility_unique 100 105 1 0.05
           (price_formula 100 105 1 0.05 0.2) 0.2 0.2); try lra;
    apply bsm_call_value_formula; lra.
Defined.

(** X10: on the positive volatilities an update of the solver moves the
    guess towards the implied volatility: with [S0, K, T > 0] and the market
    price the value of the pricer at [implied > 0], one iteration from a
    guess above [implied] returns a smaller guess and one iteration from a
    positive guess below [implied] returns a larger one. *)
Theorem bsm_call_imp_vol_direction (S0 K T r C0 implied sigma : R) :
  0 < S0 -> 0 < K -> 0 < T -> 0 < implied -> 0 < sigma ->
  bsm_call_value S0 K T r implied = Ok C0 ->
  exists s, bsm_call_imp_vol S0 K T r C0 sigma 1 = Ok s
            /\ (implied < sigma -> s < sigma)
            /\ (sigma < implied -> sigma < s).
Proof.
  intros HS HK HT Hi Hs HC.
  destruct (ratio_pos S0 K HS HK) as [HK0 HSK].
  destruct (newton_update_ok S0 K T r C0 sigma HS HK0 HSK HT)
    as [p [g [Hp [_ [Hg Hu]]]]]; [lra |].
  rewrite bsm_call_value_formula in HC by (try assumption; lra).
  rewrite bsm_call_value_formula in Hp by (try assumption; lra).
  injection HC as HC. injection Hp as Hp.
  exists (sigma - (p - C0) / g). split; [| split].
  - rewrite (bsm_call_imp_vol_succ S0 K T r C0 sigma 0).
    change (bsm_call_imp_vol S0 K T r C0 sigma 0) with (Ok sigma).
    cbv [bind]. exact Hu.
  - intros Hlt.
    pose proof (price_formula_incr S0 K T r implied sigma HS HK HT Hi Hlt).
    assert (0 < (p - C0) / g) by (apply Rdiv_lt_0_compat; lra). lra.
  - intros Hlt.
    pose proof (price_formula_incr S0 K T r sigma implied HS HK HT Hs Hlt).
    assert (0 < (C0 - p) / g) by (apply Rdiv_lt_0_compat; lra).
    replace ((p - C0) / g) with (- ((C0 - p) / g)) by (field; lra). lra.
Qed.

Lemma bsm_call_imp_vol_direction_witness :
  exists s,
    bsm_call_imp_vol 100 105 1 0.05 (price_formula 100 105 1 0.05 0.2) 0.3 1
    = Ok s
    /\ (0.2 < 0.3 -> s < 0.3)
    /\ (0.3 < 0.2 -> 0.3 < s).
Proof.
  apply (bsm_call_imp_vol_direction 100 105 1 0.05 _ 0.2 0.3); try lra.
  apply bsm_call_value_formula; lra.
Defined.

(** ** The estimator cells *)

(** A [for] loop over the elements of a list. *)
Fixpoint for_in {A B : Type} (l : list A) (body : A -> B -> result B)
  (b : B) : result B :=
  match l with
  | [] => Ok b
  | x :: l' => b' <- body x b ;; for_in l' body b'
  end.

(** The "C-like iteration" cell:
    [sum_val = 0.0; for path in S: sum_val += max(path[-1] - K, 0);
     C0 = exp(-r * T) * sum_val / I]. *)
Definition estimator_loop (K T r : R) (I : nat) (S : list (list R))
  : result R :=
  sum_val <- for_in S
               (fun path sum_val =>
                  last <- py_last path ;;
                  Ok (sum_val + py_max (last - K) 0)) 0 ;;
  py_div (exp (- r * T) * sum_val) (INR I).

Lemma for_in_comprehension (K : R) (S : list (list R)) (acc : R) :
  for_in S (fun path sum_val =>
              last <- py_last path ;;
              Ok (sum_val + py_max (last - K) 0)) acc
  = (payoffs <- comprehension
                  (fun path => last <- py_last path ;;
                               Ok (py_max (last - K) 0)) S ;;
     Ok (fold_left Rplus payoffs acc)).
Proof.
  revert acc. induction S as [| path S IH]; intros acc; simpl;
    [reflexivity |].
  destruct (py_last path) as [last | e]; simpl; [| reflexivity].
  rewrite IH.
  destruct (comprehension
              (fun path0 => last0 <- py_last path0 ;;
                            Ok (py_max (last0 - K) 0)) S);
    reflexivity.
Qed.

(** X11: the explicit loop of the "C-like iteration" cell and the list
    comprehension of [mcs_pure_python.py] give the same outcome on every
    list of paths, the [IndexError] on an empty path and the
    [ZeroDivisionError] for [I = 0] included. *)
Theorem estimator_loop_comprehension (K T r : R) (I : nat)
  (S : list (list R)) :
  estimator_loop K T r I S = estimator K T r I S.
Proof.
  unfold estimator_loop, estimator. rewrite for_in_comprehension.
  destruct (comprehension
              (fun path => last <- py_last path ;;
                           Ok (py_max (last - K) 0)) S);
    reflexivity.
Qed.

(** ** The three scripts: sign, edge cases and use of the generator *)

Lemma run_bind_lift_inv {A B : Type} (m : rand A) (g : A -> result B)
  (b : B) :
  run (x <~ m ;; lift (g x)) = Ok b ->
  exists a c, m 0%nat = Ok (a, c) /\ g a = Ok b.
Proof.
  unfold run, rand_bind, lift. intros H.
  destruct (m 0%nat) as [[a c] | e]; [| discriminate].
  exists a, c. split; [reflexivity |].
  destruct (g a); [injection H as ->; reflexivity | discriminate].
Qed.

Lemma fold_left_Rplus_nonneg (l : list R) (acc : R) :
  0 <= acc -> Forall (fun x => 0 <= x) l -> 0 <= fold_left Rplus l acc.
Proof.
  revert acc. induction l as [| x l IH]; intros acc Hacc Hl; simpl;
    [exact Hacc |].
  inversion Hl; subst. apply IH; [lra | assumption].
Qed.

Lemma comprehension_payoffs_nonneg (K : R) (S : list (list R))
  (payoffs : list R) :
  comprehension (fun path => last <- py_last path ;;
                             Ok (py_max (last - K) 0)) S = Ok payoffs ->
  Forall (fun x => 0 <= x) payoffs.
Proof.
  revert payoffs. induction S as [| path S IH]; intros payoffs H; simpl in H.
  - injection H as <-. constructor.
  - destruct (py_last path) as [last |]; simpl in H; [| discriminate].
    destruct (comprehension _ S) as [ps |]; simpl in H; [| discriminate].
    injection H as <-. constructor; [| apply IH; reflexivity].
    rewrite py_max_Rmax. apply Rmax_r.
Qed.

Lemma discounted_average_nonneg (r T total : R) (I : nat) :
  INR I <> 0 -> 0 <= total -> 0 <= exp (- r * T) * total / INR I.
Proof.
  intros HI Htot. pose proof (pos_INR I). pose proof (exp_pos (- r * T)).
  apply Rmult_le_pos; [apply Rmult_le_pos; lra |].
  left. apply Rinv_0_lt_compat. lra.
Qed.

Lemma estimator_nonneg (K T r : R) (I : nat) (S : list (list R)) (v : R) :
  estimator K T r I S = Ok v -> 0 <= v.
Proof.
  unfold estimator. intros H.
  destruct (comprehension _ S) as [ps |] eqn:Hps; simpl in H;
    [| discriminate].
  unfold py_div in H. destruct (Req_dec_T (INR I) 0); [discriminate |].
  injection H as <-. apply discounted_average_nonneg; [assumption |].
  apply fold_left_Rplus_nonneg; [lra |].
  apply (comprehension_payoffs_nonneg K S ps Hps).
Qed.

Lemma np_estimator_nonneg (K T r : R) (I : nat) (S : matrix) (v : R) :
  np_estimator K T r I S = Ok v -> 0 <= v.
Proof.
  unfold np_estimator. intros H.
  destruct (py_last S) as [last |]; simpl in H; [| discriminate].
  unfold np_div in H. destruct (Req_dec_T (INR I) 0); [discriminate |].
  injection H as <-. apply discounted_average_nonneg; [assumption |].
  apply fold_left_Rplus_nonneg; [lra |].
  apply Forall_map, Forall_forall. intros x _. apply Rmax_r.
Qed.

(** X12: whatever the parameters and the draws, a value left by any of the
    three Monte Carlo scripts is non-negative. *)
Theorem mcs_value_nonneg (draws : nat -> R) (S0 K T r sigma : R)
  (M I : nat) (v : R) :
  run (mcs_pure_python draws S0 K T r sigma M I) = Ok v
  \/ run (mcs_vector_numpy draws S0 K T r sigma M I) = Ok v
  \/ run (mcs_full_vector_numpy draws S0 K T r sigma M I) = Ok v ->
  0 <= v.
Proof.
  intros [H | [H | H]].
  - destruct (run_bind_lift_inv _ _ _ H) as [S [c [_ Hv]]].
    apply (estimator_nonneg K T r I S v Hv).
  - destruct (run_bind_lift_inv _ _ _ H) as [S [c [_ Hv]]].
    apply (np_estimator_nonneg K T r I S v Hv).
  - destruct (run_bind_lift_inv _ _ _ H) as [S [c [_ Hv]]].
    apply (np_estimator_nonneg K T r I S v Hv).
Qed.

Lemma mcs_value_nonneg_witness :
  0 <= mc_value 100 105 1 0.05 0.2 2 3 (gauss_at (fun _ => 0) 2).
Proof.
  apply (mcs_value_nonneg (fun _ => 0) 100 105 1 0.05 0.2 2 3).
  left. apply pure_python_run_ok; [lia | lia | lra].
Defined.

Lemma euler_level_zero_vol (S0 T r : R) (M : nat) (z : nat -> nat -> R)
  (i t : nat) :
  euler_level S0 T r 0 M z i t = S0 * exp (r * euler_dt T M * INR t).
Proof.
  induction t as [| t IH].
  - simpl. rewrite Rmult_0_r, exp_0. ring.
  - simpl euler_level. rewrite IH, S_INR. unfold euler_step.
    rewrite Rmult_assoc, <- exp_plus. do 2 f_equal. field.
Qed.

Lemma euler_dt_total (T : R) (M : nat) :
  (1 <= M)%nat -> euler_dt T M * INR M = T.
Proof.
  intros HM. unfold euler_dt. pose proof (INR_pos_nonzero M HM).
  field. lra.
Qed.

Lemma sum_upto_const (c : R) (n : nat) :
  sum_upto (fun _ => c) n = INR n * c.
Proof.
  induction n as [| n IH]; [simpl; ring |].
  simpl sum_upto. rewrite IH, S_INR. ring.
Qed.

Lemma mc_value_zero_vol (S0 K T r : R) (M I : nat) (z : nat -> nat -> R) :
  (1 <= M)%nat -> (1 <= I)%nat ->
  mc_value S0 K T r 0 M I z = exp (- r * T) * Rmax (S0 * exp (r * T) - K) 0.
Proof.
  intros HM HI. unfold mc_value. f_equal.
  rewrite (sum_upto_ext _ (fun _ => Rmax (S0 * exp (r * T) - K) 0)).
  - rewrite sum_upto_const. pose proof (INR_pos_nonzero I HI). field. lra.
  - intros i _. unfold payoff. rewrite euler_level_zero_vol.
    rewrite Rmult_assoc, (euler_dt_total T M HM). reflexivity.
Qed.

(** X13: with a zero volatility the draws play no part.  For [M, I >= 1]
    and [T >= 0] the sequential and the step-vectorized scripts both leave
    the discounted payoff of the forward level,
    [exp(-r T) * max(S0 * exp(r T) - K, 0)], whatever [M], [I] and the
    draws; the fully vectorized script leaves
    [exp(-r T) * max(S0 * exp(r T + r T / M) - K, 0)], the payoff of a level
    grown over one more step. *)
Theorem mcs_zero_volatility (draws : nat -> R) (S0 K T r : R) (M I : nat) :
  (1 <= M)%nat -> (1 <= I)%nat -> 0 <= T ->
  run (mcs_pure_python draws S0 K T r 0 M I)
  = Ok (exp (- r * T) * Rmax (S0 * exp (r * T) - K) 0)
  /\ run (mcs_vector_numpy draws S0 K T r 0 M I)
     = Ok (exp (- r * T) * Rmax (S0 * exp (r * T) - K) 0)
  /\ run (mcs_full_vector_numpy draws S0 K T r 0 M I)
     = Ok (exp (- r * T)
           * Rmax (S0 * exp (r * T + r * (T / INR M)) - K) 0).
Proof.
  intros HM HI HT. split; [| split].
  - destruct (pure_python_run_ok draws S0 K T r 0 M I HM HI HT) as [_ H].
    rewrite H. f_equal. apply mc_value_zero_vol; assumption.
  - rewrite (mcs_vector_numpy_ok draws S0 K T r 0 M I HM HI HT).
    f_equal. apply mc_value_zero_vol; assumption.
  - rewrite (mcs_full_vector_numpy_ok draws S0 K T r 0 M I HM HI HT).
    do 2 f_equal.
    rewrite (sum_upto_ext _
               (fun _ => Rmax (S0 * exp (r * T + r * (T / INR M)) - K) 0)).
    + rewrite sum_upto_const. pose proof (INR_pos_nonzero I HI).
      field. lra.
    + intros i _. rewrite euler_level_zero_vol.
      rewrite (Rmult_assoc r), (euler_dt_total T M HM).
      unfold euler_step, euler_dt.
      rewrite Rmult_assoc, <- exp_plus. do 4 f_equal. field.
      pose proof (INR_pos_nonzero M HM). lra.
Qed.

Lemma mcs_zero_volatility_witness :
  run (mcs_pure_python (fun _ => 1) 100 105 1 0.05 0 2 3)
  = Ok (exp (- (0.05) * 1) * Rmax (100 * exp (0.05 * 1) - 105) 0)
  /\ run (mcs_vector_numpy (fun _ => 1) 100 105 1 0.05 0 2 3)
     = Ok (exp (- (0.05) * 1) * Rmax (100 * exp (0.05 * 1) - 105) 0)
  /\ run (mcs_full_vector_numpy (fun _ => 1) 100 105 1 0.05 0 2 3)
     = Ok (exp (- (0.05) * 1)
           * Rmax (100 * exp (0.05 * 1 + 0.05 * (1 / INR 2)) - 105) 0).
Proof.
  apply (mcs_zero_volatility (fun _ => 1) 100 105 1 0.05 2 3); [lia | lia | lra].
Defined.

Lemma bind_lift_position {A B : Type} (m : rand A) (g : A -> result B)
  (a : A) (b : B) (c : nat) :
  m 0%nat = Ok (a, c) -> g a = Ok b ->
  (x <~ m ;; lift (g x)) 0%nat = Ok (b, c).
Proof.
  intros Hm Hg. unfold rand_bind, lift. rewrite Hm, Hg. reflexivity.
Qed.

(** X14: how many variates each script takes from its generator.  For
    [M, I >= 1] and [T >= 0], run from a freshly seeded generator, the
    sequential script ends at position [I * M], the step-vectorized script
    at position [M * I] and the fully vectorized script at position
    [(M + 1) * I]: it takes [I] variates more than the other two. *)
Theorem mcs_variates_taken (draws : nat -> R) (S0 K T r sigma : R)
  (M I : nat) :
  (1 <= M)%nat -> (1 <= I)%nat -> 0 <= T ->
  exists v1 v2 v3,
    mcs_pure_python draws S0 K T r sigma M I 0%nat = Ok (v1, (I * M)%nat)
    /\ mcs_vector_numpy draws S0 K T r sigma M I 0%nat
       = Ok (v2, (M * I)%nat)
    /\ mcs_full_vector_numpy draws S0 K T r sigma M I 0%nat
       = Ok (v3, ((M + 1) * I)%nat).
Proof.
  intros HM HI HT. do 3 eexists. split; [| split].
  - apply (bind_lift_position _ _ _ _ _
             (simulate_paths_ok draws S0 T r sigma M I HM HT)).
    apply estimator_ok. exact HI.
  - apply (bind_lift_position _ _ _ _ _
             (simulate_levels_ok draws S0 T r sigma M I HM HT)).
    apply (np_estimator_ok K T r M I _ HI).
  - apply (bind_lift_position _ _ _ _ _
             (simulate_levels_full_ok draws S0 T r sigma M I HM HT)).
    apply (np_estimator_ok K T r M I _ HI).
Qed.

Lemma mcs_variates_taken_witness :
  exists v1 v2 v3,
    mcs_pure_python (fun _ => 0) 100 105 1 0.05 0.2 2 3 0%nat
    = Ok (v1, (3 * 2)%nat)
    /\ mcs_vector_numpy (fun _ => 0) 100 105 1 0.05 0.2 2 3 0%nat
       = Ok (v2, (2 * 3)%nat)
    /\ mcs_full_vector_numpy (fun _ => 0) 100 105 1 0.05 0.2 2 3 0%nat
       = Ok (v3, ((2 + 1) * 3)%nat).
Proof.
  apply (mcs_variates_taken (fun _ => 0) 100 105 1 0.05 0.2 2 3);
    [lia | lia | lra].
Defined.

(** X15: with [M = 0] each of the three scripts stops with
    [ZeroDivisionError] at [dt = T / M], before any variate is drawn. *)
Theorem mcs_no_time_step (draws : nat -> R) (S0 K T r sigma : R) (I : nat) :
  run (mcs_pure_python draws S0 K T r sigma 0 I) = Raise ZeroDivisionError
  /\ run (mcs_vector_numpy draws S0 K T r sigma 0 I)
     = Raise ZeroDivisionError
  /\ run (mcs_full_vector_numpy draws S0 K T r sigma 0 I)
     = Raise ZeroDivisionError.
Proof.
  repeat split; apply run_bind_raise.
  - apply simulate_paths_no_step.
  - unfold simulate_levels, rand_bind, lift. simpl INR.
    rewrite py_div_zero. reflexivity.
  - unfold simulate_levels_full, rand_bind, lift. simpl INR.
    rewrite py_div_zero. reflexivity.
Qed.

Lemma simulate_levels_negative_maturity (draws : nat -> R)
  (S0 T r sigma : R) (M I : nat) :
  (1 <= M)%nat -> T < 0 ->
  simulate_levels draws S0 T r sigma M I 0%nat = Raise ValueError.
Proof.
  intros HM HT. pose proof (euler_dt_neg T M HM HT) as Hdt.
  unfold simulate_levels, rand_bind, lift.
  rewrite py_div_ok by (pose proof (INR_pos_nonzero M HM); lra).
  fold (euler_dt T M).
  destruct M as [| M']; [lia |].
  unfold set_row, np_zeros. rewrite repeat_length.
  replace (S M' + 1)%nat with (S (S M')) by lia.
  change (0 <? S (S M'))%nat with true. cbv iota.
  unfold range2. replace (S (S M') - 1)%nat with (S M') by lia.
  simpl for_each_rand. unfold rand_bind, step_body at 1, rand_bind.
  unfold standard_normal, lift. simpl py_index.
  rewrite (py_sqrt_neg _ Hdt). reflexivity.
Qed.

Lemma simulate_levels_full_negative_maturity (draws : nat -> R)
  (S0 T r sigma : R) (M I : nat) :
  (1 <= M)%nat -> T < 0 ->
  simulate_levels_full draws S0 T r sigma M I 0%nat = Raise ValueError.
Proof.
  intros HM HT. pose proof (euler_dt_neg T M HM HT) as Hdt.
  unfold simulate_levels_full, rand_bind, lift.
  rewrite py_div_ok by (pose proof (INR_pos_nonzero M HM); lra).
  fold (euler_dt T M). rewrite (py_sqrt_neg _ Hdt). reflexivity.
Qed.

(** X16: with a negative maturity and [M >= 1] the scripts stop with the
    [ValueError] of [sqrt(dt)]: the two numpy scripts for every [I], the
    sequential script as soon as there is a path to build ([I >= 1]). *)
Theorem mcs_negative_maturity (draws : nat -> R) (S0 K T r sigma : R)
  (M I : nat) :
  (1 <= M)%nat -> T < 0 ->
  ((1 <= I)%nat ->
   run (mcs_pure_python draws S0 K T r sigma M I) = Raise ValueError)
  /\ run (mcs_vector_numpy draws S0 K T r sigma M I) = Raise ValueError
  /\ run (mcs_full_vector_numpy draws S0 K T r sigma M I)
     = Raise ValueError.
Proof.
  intros HM HT. repeat split.
  - intros HI. apply run_bind_raise.
    apply simulate_paths_negative_maturity; assumption.
  - apply run_bind_raise.
    apply simulate_levels_negative_maturity; assumption.
  - apply run_bind_raise.
    apply simulate_levels_full_negative_maturity; assumption.
Qed.

Lemma mcs_negative_maturity_witness :
  run (mcs_pure_python (fun _ => 0) 100 105 (-1) 0.05 0.2 2 3)
  = Raise ValueError
  /\ run (mcs_vector_numpy (fun _ => 0) 100 105 (-1) 0.05 0.2 2 3)
     = Raise ValueError
  /\ run (mcs_full_vector_numpy (fun _ => 0) 100 105 (-1) 0.05 0.2 2 3)
     = Raise ValueError.
Proof.
  destruct (mcs_negative_maturity (fun _ => 0) 100 105 (-1) 0.05 0.2 2 3)
    as [H1 [H2 H3]]; [lia | lra |].
  split; [apply H1; lia | split; assumption].
Defined.

(** X17: with no path ([I = 0], [M >= 1], [T >= 0]) the sequential script
    stops with [ZeroDivisionError] at the final division by [I], while the
    two numpy scripts divide a numpy scalar by zero and leave no finite
    value. *)
Theorem mcs_no_path (draws : nat -> R) (S0 K T r sigma : R) (M : nat) :
  (1 <= M)%nat -> 0 <= T ->
  run (mcs_pure_python draws S0 K T r sigma M 0) = Raise ZeroDivisionError
  /\ run (mcs_vector_numpy draws S0 K T r sigma M 0) = Raise NonFinite
  /\ run (mcs_full_vector_numpy draws S0 K T r sigma M 0) = Raise NonFinite.
Proof.
  intros HM HT. split; [| split].
  - unfold mcs_pure_python.
    rewrite (run_bind_lift _ _ _ _
               (simulate_paths_ok draws S0 T r sigma M 0 HM HT)).
    unfold estimator. simpl. apply py_div_zero.
  - unfold mcs_vector_numpy.
    rewrite (run_bind_lift _ _ _ _
               (simulate_levels_ok draws S0 T r sigma M 0 HM HT)).
    unfold np_estimator. replace (M + 1)%nat with (S M) by lia.
    rewrite py_last_map_seq. simpl.
    unfold np_div. destruct (Req_dec_T 0 0); [reflexivity | contradiction].
  - unfold mcs_full_vector_numpy.
    rewrite (run_bind_lift _ _ _ _
               (simulate_levels_full_ok draws S0 T r sigma M 0 HM HT)).
    unfold np_estimator. replace (M + 1)%nat with (S M) by lia.
    rewrite py_last_map_seq. simpl.
    unfold np_div. destruct (Req_dec_T 0 0); [reflexivity | contradiction].
Qed.

Lemma mcs_no_path_witness :
  run (mcs_pure_python (fun _ => 0) 100 105 1 0.05 0.2 2 0)
  = Raise ZeroDivisionError
  /\ run (mcs_vector_numpy (fun _ => 0) 100 105 1 0.05 0.2 2 0)
     = Raise NonFinite
  /\ run (mcs_full_vector_numpy (fun _ => 0) 100 105 1 0.05 0.2 2 0)
     = Raise NonFinite.
Proof.
  apply (mcs_no_path (fun _ => 0) 100 105 1 0.05 0.2 2); [lia | lra].
Defined.

Lemma level_rows_shape (S0 : R) (M I : nat) (level : nat -> nat -> R) :
  (forall i, level i 0%nat = S0) ->
  (forall i t, 0 < level i t) ->
  let rows := map (fun t => map (fun i => level i t) (seq 0 I))
                (seq 0 (M + 1)) in
  length rows = (M + 1)%nat
  /\ nth_error rows 0 = Some (repeat S0 I)
  /\ Forall (fun row => length row = I /\ Forall (fun x => 0 < x) row) rows.
Proof.
  intros H0 Hpos rows. unfold rows. repeat split.
  - rewrite length_map, length_seq. reflexivity.
  - replace (M + 1)%nat with (S M) by lia. simpl. f_equal.
    rewrite <- map_const_seq. apply map_ext. intros i. apply H0.
  - apply Forall_map, Forall_forall. intros t _. split.
    + rewrite length_map, length_seq. reflexivity.
    + apply Forall_map, Forall_forall. intros i _. apply Hpos.
Qed.

Lemma full_level_pos (draws : nat -> R) (S0 T r sigma : R) (M I : nat)
  (i t : nat) :
  0 < S0 -> 0 < full_level draws S0 T r sigma M I i t.
Proof.
  intros HS. unfold full_level. destruct (t =? 0)%nat; [exact HS |].
  apply Rmult_lt_0_compat; [exact HS | apply exp_pos].
Qed.

(** X18: for [S0 > 0], [M >= 1] and [T >= 0] the array [S] of each numpy
    script has [M + 1] rows of [I] strictly positive levels, and its first
    row holds [S0] in every column. *)
Theorem numpy_levels_shape (draws : nat -> R) (S0 T r sigma : R) (M I : nat) :
  0 < S0 -> (1 <= M)%nat -> 0 <= T ->
  (exists S,
      run (simulate_levels draws S0 T r sigma M I) = Ok S
      /\ length S = (M + 1)%nat
      /\ nth_error S 0 = Some (repeat S0 I)
      /\ Forall (fun row => length row = I
                            /\ Forall (fun x => 0 < x) row) S)
  /\ (exists S,
         run (simulate_levels_full draws S0 T r sigma M I) = Ok S
         /\ length S = (M + 1)%nat
         /\ nth_error S 0 = Some (repeat S0 I)
         /\ Forall (fun row => length row = I
                               /\ Forall (fun x => 0 < x) row) S).
Proof.
  intros HS HM HT. split.
  - eexists. split.
    + apply (run_ok _ _ _
               (simulate_levels_ok draws S0 T r sigma M I HM HT)).
    + apply (level_rows_shape S0 M I
               (euler_level S0 T r sigma M (normal_at draws I))).
      * intros i. reflexivity.
      * intros i t. apply euler_level_pos. exact HS.
  - eexists. split.
    + apply (run_ok _ _ _
               (simulate_levels_full_ok draws S0 T r sigma M I HM HT)).
    + apply (level_rows_shape S0 M I
               (full_level draws S0 T r sigma M I)).
      * intros i. reflexivity.
      * intros i t. apply full_level_pos. exact HS.
Qed.

Lemma numpy_levels_shape_witness :
  (exists S,
      run (simulate_levels (fun _ => 0) 100 1 0.05 0.2 2 3) = Ok S
      /\ length S = (2 + 1)%nat
      /\ nth_error S 0 = Some (repeat 100 3)
      /\ Forall (fun row => length row = 3%nat
                            /\ Forall (fun x => 0 < x) row) S)
  /\ (exists S,
         run (simulate_levels_full (fun _ => 0) 100 1 0.05 0.2 2 3) = Ok S
         /\ length S = (2 + 1)%nat
         /\ nth_error S 0 = Some (repeat 100 3)
         /\ Forall (fun row => length row = 3%nat
                               /\ Forall (fun x => 0 < x) row) S).
Proof.
  apply (numpy_levels_shape (fun _ => 0) 100 1 0.05 0.2 2 3);
    [lra | lia | lra].
Defined.

(** X19: the sequential and the step-vectorized scripts compute the same
    function of the draws: for [M, I >= 1] and [T >= 0], when the two
    generators hand the same variate to every step of every path (the
    sequential one takes them path by path, the other step by step), the
    two scripts leave the same value. *)
Theorem sequential_and_step_vectorized_agree (draws_py draws_np : nat -> R)
  (S0 K T r sigma : R) (M I : nat) :
  (1 <= M)%nat -> (1 <= I)%nat -> 0 <= T ->
  (forall t i, (1 <= t <= M)%nat -> (i < I)%nat ->
               draws_py (i * M + (t - 1))%nat
               = draws_np ((t - 1) * I + i)%nat) ->
  run (mcs_pure_python draws_py S0 K T r sigma M I)
  = run (mcs_vector_numpy draws_np S0 K T r sigma M I).
Proof.
  intros HM HI HT Hz.
  apply mcs_pure_python_vector_numpy; try assumption.
Qed.

Lemma sequential_and_step_vectorized_agree_witness :
  run (mcs_pure_python (fun _ => 1) 100 105 1 0.05 0.2 2 3)
  = run (mcs_vector_numpy (fun _ => 1) 100 105 1 0.05 0.2 2 3).
Proof.
  apply (sequential_and_step_vectorized_agree (fun _ => 1) (fun _ => 1));
    [lia | lia | lra | reflexivity].
Defined.

(** X20: what the fully vectorized script computes.  For [M, I >= 1] and
    [T >= 0] its value is the discounted average of
    [max(S' - K, 0)] where [S'] is the level after the [M] Euler steps fed
    by rows [1] to [M] of the array of draws, grown by one further Euler
    step fed by row [0]. *)
Theorem fully_vectorized_extra_step (draws : nat -> R) (S0 K T r sigma : R)
  (M I : nat) :
  (1 <= M)%nat -> (1 <= I)%nat -> 0 <= T ->
  run (mcs_full_vector_numpy draws S0 K T r sigma M I)
  = Ok (exp (- r * T)
        * (sum_upto
             (fun i =>
                Rmax (euler_step T r sigma M
                        (euler_level S0 T r sigma M
                           (fun t i' => draws (t * I + i')%nat) i M)
                        (draws i) - K) 0) I
           / INR I)).
Proof.
  intros HM HI HT.
  rewrite (mcs_full_vector_numpy_ok draws S0 K T r sigma M I HM HI HT).
  reflexivity.
Qed.

Lemma fully_vectorized_extra_step_witness :
  run (mcs_full_vector_numpy (fun _ => 0) 100 105 1 0.05 0.2 2 3)
  = Ok (exp (- (0.05) * 1)
        * (sum_upto
             (fun i =>
                Rmax (euler_step 1 0.05 0.2 2
                        (euler_level 100 1 0.05 0.2 2
                           (fun t i' => (fun _ => 0) (t * 3 + i')%nat) i 2)
                        ((fun _ : nat => 0) i) - 105) 0) 3
           / INR 3)).
Proof.
  apply (fully_vectorized_extra_step (fun _ => 0) 100 105 1 0.05 0.2 2 3);
    [lia | lia | lra].
Defined.

Lemma Rmax_strike (x K1 K2 : R) :
  K1 <= K2 -> Rmax (x - K2) 0 <= Rmax (x - K1) 0.
Proof.
  intros HK. apply Rmax_lub.
  - apply Rle_trans with (x - K1); [lra | apply Rmax_l].
  - apply Rmax_r.
Qed.

Lemma sum_upto_le (f g : nat -> R) (n : nat) :
  (forall i, f i <= g i) -> sum_upto f n <= sum_upto g n.
Proof.
  intros Hfg. induction n as [| n IH]; simpl; [lra |].
  specialize (Hfg n). lra.
Qed.

(** X21: with the same draws a higher strike never gives a higher value:
    for [M, I >= 1], [T >= 0] and [K1 <= K2] the value the sequential script
    leaves for the strike [K2] is at most the value it leaves for [K1]. *)
Theorem mcs_pure_python_strike (draws : nat -> R) (S0 K1 K2 T r sigma : R)
  (M I : nat) :
  (1 <= M)%nat -> (1 <= I)%nat -> 0 <= T -> K1 <= K2 ->
  exists v1 v2,
    run (mcs_pure_python draws S0 K1 T r sigma M I) = Ok v1
    /\ run (mcs_pure_python draws S0 K2 T r sigma M I) = Ok v2
    /\ v2 <= v1.
Proof.
  intros HM HI HT HK.
  destruct (pure_python_run_ok draws S0 K1 T r sigma M I HM HI HT)
    as [_ H1].
  destruct (pure_python_run_ok draws S0 K2 T r sigma M I HM HI HT)
    as [_ H2].
  do 2 eexists. split; [exact H1 | split; [exact H2 |]].
  unfold mc_value. pose proof (exp_pos (- r * T)) as He.
  pose proof (Rinv_0_lt_compat _ (INR_pos_nonzero I HI)) as Hi.
  apply Rmult_le_compat_l; [lra |].
  apply Rmult_le_compat_r; [lra |].
  apply sum_upto_le. intros i. unfold payoff. apply Rmax_strike. exact HK.
Qed.

Lemma mcs_pure_python_strike_witness :
  exists v1 v2,
    run (mcs_pure_python (fun _ => 0) 100 100 1 0.05 0.2 2 3) = Ok v1
    /\ run (mcs_pure_python (fun _ => 0) 100 105 1 0.05 0.2 2 3) = Ok v2
    /\ v2 <= v1.
Proof.
  apply (mcs_pure_python_strike (fun _ => 0) 100 100 105 1 0.05 0.2 2 3);
    [lia | lia | lra | lra].
Defined.

(** ** The trend signal of the technical-analysis cells

    A column of floats is a list of entries that are a number or [NaN]
    ([None]); the moving-average columns start with [NaN] entries.  The
    columns of one data frame share their index, so operations between them
    go entry by entry. *)

Definition series : Type := list (option R).

(** [a - b] between two columns: [NaN] wherever either entry is [NaN]. *)
Fixpoint series_sub (a b : series) : series :=
  match a, b with
  | x :: a', y :: b' =>
      match x, y with
      | Some u, Some v => Some (u - v)
      | _, _ => None
      end :: series_sub a' b'
  | _, _ => []
  end.

(** [a > c] and [a < c] against a scalar: false on [NaN]. *)
Definition series_gt (a : series) (c : R) : list bool :=
  map (fun x => match x with
                | Some v => if Rlt_dec c v then true else false
                | None => false
                end) a.

Definition series_lt (a : series) (c : R) : list bool :=
  map (fun x => match x with
                | Some v => if Rlt_dec v c then true else false
                | None => false
                end) a.

(** [np.where(cond, x, y)] with two scalars, and with a scalar and a
    column. *)
Definition np_where_scalars (cond : list bool) (x y : Z) : list Z :=
  map (fun c : bool => if c then x else y) cond.

Fixpoint np_where_column (cond : list bool) (x : Z) (ys : list Z) : list Z :=
  match cond, ys with
  | c :: cond', y :: ys' => (if c then x else y) :: np_where_column cond' x ys'
  | _, _ => []
  end.

(** [sp500['42-252'] = sp500['42d'] - sp500['252d']], then
    [sp500['Regime'] = np.where(sp500['42-252'] > SD, 1, 0)] and
    [sp500['Regime'] = np.where(sp500['42-252'] < -SD, -1,
                                sp500['Regime'])]. *)
Definition regime (SD : R) (short_avg long_avg : series) : list Z :=
  let signal := series_sub short_avg long_avg in
  let first := np_where_scalars (series_gt signal SD) 1 0 in
  np_where_column (series_lt signal (- SD)) (-1) first.

Definition regime_of (SD : R) (x y : option R) : Z :=
  match x, y with
  | Some u, Some v =>
      if Rlt_dec (u - v) (- SD) then (-1)%Z
      else if Rlt_dec SD (u - v) then 1%Z else 0%Z
  | _, _ => 0%Z
  end.

Lemma regime_pointwise (SD : R) (a b : series) :
  forall t x y,
    nth_error a t = Some x -> nth_error b t = Some y ->
    nth_error (regime SD a b) t = Some (regime_of SD x y).
Proof.
  unfold regime. revert b.
  induction a as [| x0 a IH]; intros b t x y Ha Hb.
  - destruct t; discriminate.
  - destruct b as [| y0 b]; [destruct t; discriminate |].
    destruct t as [| t].
    + injection Ha as <-. injection Hb as <-. simpl. f_equal.
      unfold regime_of. destruct x0 as [u |], y0 as [v |]; try reflexivity.
      destruct (Rlt_dec (u - v) (- SD)), (Rlt_dec SD (u - v)); reflexivity.
    + simpl in Ha, Hb. simpl. apply (IH b t x y Ha Hb).
Qed.

Ltac regime_case :=
  repeat match goal with
         | H : exists _, _ |- _ => destruct H
         | H : _ /\ _ |- _ => destruct H
         | H : _ \/ _ |- _ => destruct H
         | H : Some _ = Some _ |- _ => injection H as H; subst
         end;
  try discriminate; try lia; try lra; eauto 7.

(** X22: the trend signal, for a threshold [SD >= 0].  On a day where both
    moving averages are present the regime is [1] exactly when the short
    average exceeds the long one by more than [SD], [-1] exactly when it is
    below it by more than [SD], and [0] otherwise; on a day where either
    average is still [NaN] the regime is [0]. *)
Theorem regime_classifies (SD : R) (short_avg long_avg : series) (t : nat)
  (x y : option R) :
  0 <= SD ->
  nth_error short_avg t = Some x -> nth_error long_avg t = Some y ->
  exists g,
    nth_error (regime SD short_avg long_avg) t = Some g
    /\ (g = 1 \/ g = -1 \/ g = 0)%Z
    /\ (g = 1%Z <-> exists u v, x = Some u /\ y = Some v /\ SD < u - v)
    /\ (g = (-1)%Z <-> exists u v, x = Some u /\ y = Some v /\ u - v < - SD)
    /\ (x = None \/ y = None -> g = 0%Z).
Proof.
  intros HSD Hx Hy. exists (regime_of SD x y).
  split; [apply regime_pointwise; assumption |].
  unfold regime_of. destruct x as [u |], y as [v |].
  - destruct (Rlt_dec (u - v) (- SD)) as [Hlo | Hlo];
      [| destruct (Rlt_dec SD (u - v)) as [Hhi | Hhi]];
      repeat split; intros; regime_case.
  - repeat split; intros; regime_case.
  - repeat split; intros; regime_case.
  - repeat split; intros; regime_case.
Qed.

Lemma regime_classifies_witness :
  exists g,
    nth_error (regime 50 [None; Some 1900; Some 1700]
                 [None; Some 1800; Some 1800]) 1 = Some g
    /\ (g = 1 \/ g = -1 \/ g = 0)%Z
    /\ (g = 1%Z
        <-> exists u v, Some 1900 = Some u /\ Some 1800 = Some v
                        /\ 50 < u - v)
    /\ (g = (-1)%Z
        <-> exists u v, Some 1900 = Some u /\ Some 1800 = Some v
                        /\ u - v < - (50))
    /\ (Some 1900 = None \/ Some 1800 = None -> g = 0%Z).
Proof.
  apply (regime_classifies 50 [None; Some 1900; Some 1700]
           [None; Some 1800; Some 1800] 1 (Some 1900) (Some 1800));
    [lra | reflexivity | reflexivity].
Defined.

(** ** [bsm_vega] against the derivative of the price *)

(** X23: for [S0, K, T, sigma > 0] with [d1 >= 1/5] the value [bsm_vega]
    returns is strictly larger than [S0 * phi(d1) * sqrt(T)], the derivative
    of the price with respect to [sigma]: there the solver's steps are
    shorter than Newton steps. *)
Theorem bsm_vega_above_derivative (S0 K T r sigma : R) :
  0 < S0 -> 0 < K -> 0 < T -> 0 < sigma ->
  / 5 <= (ln (S0 / K) + (r + sigma ^ 2 / 2) * T) / (sigma * sqrt T) ->
  exists g, bsm_vega S0 K T r sigma = Ok g
            /\ density_vega S0 K T r sigma < g.
Proof.
  intros HS HK HT Hs Hd. eexists. split.
  - apply bsm_vega_value; assumption.
  - unfold density_vega. pose proof (sqrt_lt_R0 T HT) as Hq.
    apply Rmult_lt_compat_r; [exact Hq |].
    apply Rmult_lt_compat_l; [exact HS |].
    apply Normal.norm_pdf_lt_cdf. exact Hd.
Qed.

Lemma bsm_vega_above_derivative_witness :
  exists g, bsm_vega 100 100 1 0.05 0.2 = Ok g
            /\ density_vega 100 100 1 0.05 0.2 < g.
Proof.
  apply (bsm_vega_above_derivative 100 100 1 0.05 0.2); try lra.
  replace (100 / 100) with 1 by lra. rewrite ln_1, sqrt_1. lra.
Defined.

(** ** Path-major and time-major storage *)

(** X24: the list of paths of the sequential script and the array of the
    step-vectorized script are transposes of each other: for [M >= 1],
    [T >= 0] and generators that hand the same variate to every step of
    every path, [S[i][t]] of the first equals [S[t][i]] of the second for
    every path [i < I] and every time [t <= M]. *)
Theorem paths_and_levels_transposed (draws_py draws_np : nat -> R)
  (S0 T r sigma : R) (M I : nat) :
  (1 <= M)%nat -> 0 <= T ->
  (forall t i, (1 <= t <= M)%nat -> (i < I)%nat ->
               draws_py (i * M + (t - 1))%nat
               = draws_np ((t - 1) * I + i)%nat) ->
  exists S_py S_np,
    run (simulate_paths draws_py S0 T r sigma M I) = Ok S_py
    /\ run (simulate_levels draws_np S0 T r sigma M I) = Ok S_np
    /\ forall i t, (i < I)%nat -> (t <= M)%nat ->
         exists x,
           (path <- py_index S_py i ;; py_index path t) = Ok x
           /\ (row <- py_index S_np t ;; py_index row i) = Ok x.
Proof.
  intros HM HT Hz. do 2 eexists. split; [| split].
  - apply (run_ok _ _ _ (simulate_paths_ok draws_py S0 T r sigma M I HM HT)).
  - apply (run_ok _ _ _
             (simulate_levels_ok draws_np S0 T r sigma M I HM HT)).
  - intros i t Hi Ht.
    exists (euler_level S0 T r sigma M (gauss_at draws_py M) i t).
    split.
    + rewrite py_index_map_seq by exact Hi. cbv [bind].
      unfold euler_path. apply py_index_map_seq. lia.
    + rewrite py_index_map_seq by lia. cbv [bind].
      rewrite py_index_map_seq by exact Hi. f_equal.
      symmetry. apply euler_level_ext.
      intros u Hu. apply Hz; [lia | exact Hi].
Qed.

Lemma paths_and_levels_transposed_witness :
  exists S_py S_np,
    run (simulate_paths (fun _ => 1) 100 1 0.05 0.2 2 3) = Ok S_py
    /\ run (simulate_levels (fun _ => 1) 100 1 0.05 0.2 2 3) = Ok S_np
    /\ forall i t, (i < 3)%nat -> (t <= 2)%nat ->
         exists x,
           (path <- py_index S_py i ;; py_index path t) = Ok x
           /\ (row <- py_index S_np t ;; py_index row i) = Ok x.
Proof.
  apply (paths_and_levels_transposed (fun _ => 1) (fun _ => 1)
           100 1 0.05 0.2 2 3); [lia | lra | reflexivity].
Defined.
